(** * angular-auth-oidc-client: configuration validation and auth state

    A shallow embedding of [ConfigValidationService] and [AuthStateService].
    Injected collaborators (storage, token validation, logging, public
    events) are interfaces of the library whose implementations live in
    other files; they are modelled as records of functions and as a trace
    of the calls made to them.  The RxJS [BehaviorSubject] and the
    [distinctUntilChanged] operator are modelled with explicit object
    identity, because the operator compares with [===]. *)

From Stdlib Require Import ZArith Lia Ascii String.
From stdpp Require Import base list strings gmap sorting.

Local Open Scope string_scope.
Local Open Scope list_scope.
Local Open Scope nat_scope.

(** ** JavaScript values used by the two services *)

Module Js.

(** A value of TypeScript type [string] (no strict null checks): a string,
    [null] or [undefined]. *)
Inductive Str := undefined | null | str (s : string).

(** A value of type [any] as the services write and read it. *)
Inductive Val := vundefined | vnull | vnum (n : Z) | vstr (s : string).

#[global] Instance Str_eq_dec : EqDecision Str.
Proof. solve_decision. Defined.
#[global] Instance Val_eq_dec : EqDecision Val.
Proof. solve_decision. Defined.

(** [!!x] *)
Definition truthy (x : Str) : bool :=
  match x with
  | str s => negb (String.eqb s EmptyString)
  | _ => false
  end.

(** [!!x] for a number-or-absent value such as [expires_in]. *)
Definition truthyNum (x : option Z) : bool :=
  match x with
  | Some n => negb (n =? 0)%Z
  | None => false
  end.


(** What a call either returns or throws. *)
Inductive Completion (A : Type) := Return (a : A) | Throw (e : string).
Arguments Return {A} a.
Arguments Throw {A} e.

Definition mapCompletion {A B : Type} (f : A -> B) (c : Completion A) : Completion B :=
  match c with
  | Return a => Return (f a)
  | Throw e => Throw e
  end.

(** *** [decodeURIComponent]

    Strings are kept as their UTF-8 bytes.  Every [%XX] is turned into
    the byte it denotes; an escaped byte below 0x80 stands for itself, an
    escaped lead byte must be followed by escaped continuation bytes that
    together are well-formed UTF-8; anything else is a [URIError]. *)

Definition hexDigit (c : ascii) : option N :=
  let n := N_of_ascii c in
  if (48 <=? n)%N && (n <=? 57)%N then Some (n - 48)%N
  else if (65 <=? n)%N && (n <=? 70)%N then Some (n - 55)%N
  else if (97 <=? n)%N && (n <=? 102)%N then Some (n - 87)%N
  else None.

(** [(true, b)]: byte [b] came from an escape; [(false, c)]: a literal. *)
Fixpoint unescapeOctets (s : string) : option (list (bool * N)) :=
  match s with
  | EmptyString => Some []
  | String "%" (String h (String l rest)) =>
      match hexDigit h, hexDigit l, unescapeOctets rest with
      | Some a, Some b, Some r => Some ((true, 16 * a + b)%N :: r)
      | _, _, _ => None
      end
  | String "%" _ => None
  | String c rest =>
      match unescapeOctets rest with
      | Some r => Some ((false, N_of_ascii c) :: r)
      | None => None
      end
  end.

Definition inRange (lo hi b : N) : bool := (lo <=? b)%N && (b <=? hi)%N.
Definition isCont (b : N) : bool := inRange 128 191 b.

(** Well-formed UTF-8 byte sequences of two, three and four bytes. *)
Definition wellFormed2 (b0 b1 : N) : bool := inRange 194 223 b0 && isCont b1.
Definition wellFormed3 (b0 b1 b2 : N) : bool :=
  ((b0 =? 224)%N && inRange 160 191 b1 && isCont b2)
  || (inRange 225 236 b0 && isCont b1 && isCont b2)
  || ((b0 =? 237)%N && inRange 128 159 b1 && isCont b2)
  || (inRange 238 239 b0 && isCont b1 && isCont b2).
Definition wellFormed4 (b0 b1 b2 b3 : N) : bool :=
  ((b0 =? 240)%N && inRange 144 191 b1 && isCont b2 && isCont b3)
  || (inRange 241 243 b0 && isCont b1 && isCont b2 && isCont b3)
  || ((b0 =? 244)%N && inRange 128 143 b1 && isCont b2 && isCont b3).

Fixpoint decodeOctets (l : list (bool * N)) : option (list N) :=
  match l with
  | [] => Some []
  | (false, c) :: rest => cons c <$> decodeOctets rest
  | (true, b0) :: rest =>
      if (b0 <? 128)%N then cons b0 <$> decodeOctets rest
      else if inRange 192 223 b0 then
        match rest with
        | (true, b1) :: rest1 =>
            if wellFormed2 b0 b1
            then (fun r => b0 :: b1 :: r) <$> decodeOctets rest1
            else None
        | _ => None
        end
      else if inRange 224 239 b0 then
        match rest with
        | (true, b1) :: (true, b2) :: rest2 =>
            if wellFormed3 b0 b1 b2
            then (fun r => b0 :: b1 :: b2 :: r) <$> decodeOctets rest2
            else None
        | _ => None
        end
      else if inRange 240 247 b0 then
        match rest with
        | (true, b1) :: (true, b2) :: (true, b3) :: rest3 =>
            if wellFormed4 b0 b1 b2 b3
            then (fun r => b0 :: b1 :: b2 :: b3 :: r) <$> decodeOctets rest3
            else None
        | _ => None
        end
      else None
  end.

Definition bytesToString (l : list N) : string :=
  foldr (fun b s => String (ascii_of_N b) s) EmptyString l.

Definition decodeURIComponent (s : string) : Completion string :=
  match unescapeOctets s ≫= decodeOctets with
  | Some bytes => Return (bytesToString bytes)
  | None => Throw "URIError"
  end.

End Js.


(** ** Configurations *)

(** The fields of [OpenIdConfiguration] that the two services read. *)
Record OpenIdConfiguration := {
  configId : string;
  renewTimeBeforeTokenExpiresInSeconds : Z;
  enableIdTokenExpiredValidationInRenew : bool;
}.

#[global] Instance OpenIdConfiguration_eq_dec : EqDecision OpenIdConfiguration.
Proof. solve_decision. Defined.

(** ** ConfigValidationService *)

Module ConfigValidation.

(** [Level] and [RuleValidationResult] of [./rule]. *)
Inductive Level := error | warning.

#[global] Instance Level_eq_dec : EqDecision Level.
Proof. solve_decision. Defined.

Record RuleValidationResult := {
  level : Level;
  messages : list string;
}.

(** The rule sets [allRules] and [allMultipleConfigRules] are imported from
    [./rules] and typed [any[]]: a rule is a function applied to whatever
    the caller hands it, one configuration or an array of them. *)
Inductive RuleArg :=
| oneConfig (passedConfig : OpenIdConfiguration)
| configArray (passedConfigs : list OpenIdConfiguration).

Definition Rule := RuleArg -> RuleValidationResult.

(** Calls to the logger, in the order they are made. *)
Inductive LoggerCall :=
| logError (configId : string) (message : string)
| logWarning (configId : string) (message : string).

Definition getAllMessagesOfType (type : Level) (results : list RuleValidationResult)
  : list string :=
  let allMessages := map messages (filter (fun x => level x = type) results) in
  foldl (fun acc val => acc ++ val) [] allMessages.

Definition processValidationResultsAndGetErrorCount
    (allValidationResults : list RuleValidationResult) (configId : string)
  : nat * list LoggerCall :=
  let allMessages := filter (fun x => 0 < length (messages x)) allValidationResults in
  let allErrorMessages := getAllMessagesOfType error allMessages in
  let allWarnings := getAllMessagesOfType warning allMessages in
  (length allErrorMessages,
   map (logError configId) allErrorMessages ++ map (logWarning configId) allWarnings).

Definition validateConfigInternal (passedConfig : OpenIdConfiguration)
    (allRulesToUse : list Rule) : bool * list LoggerCall :=
  let allValidationResults := map (fun rule => rule (oneConfig passedConfig)) allRulesToUse in
  let '(errorCount, log) :=
    processValidationResultsAndGetErrorCount allValidationResults (configId passedConfig) in
  (errorCount =? 0, log).

Section Rules.

(** The two registered rule sets. *)
Variable allRules : list Rule.
Variable allMultipleConfigRules : list Rule.

Definition validateConfig (passedConfig : OpenIdConfiguration) : bool * list LoggerCall :=
  validateConfigInternal passedConfig allRules.

Definition validateConfigs (passedConfigs : list OpenIdConfiguration)
  : bool * list LoggerCall :=
  let result :=
    map (fun passedConfig => validateConfigInternal passedConfig allMultipleConfigRules)
        passedConfigs in
  (forallb (fun x => bool_decide (x = true)) (map fst result), concat (map snd result)).

(** The reading of [validateConfigs] in which every rule is handed the
    complete array on each of the per-element passes.  Only used to
    compare with [validateConfigs]. *)
Definition validateConfigs_wholeArray (passedConfigs : list OpenIdConfiguration) : bool :=
  forallb
    (fun passedConfig =>
       fst (processValidationResultsAndGetErrorCount
              (map (fun rule => rule (configArray passedConfigs)) allMultipleConfigRules)
              (configId passedConfig)) =? 0)
    passedConfigs.

End Rules.

End ConfigValidation.

(** ** Collaborators of AuthStateService *)

(** [EventTypes] of [../public-events/event-types], the members used here. *)
Inductive EventTypes := NewAuthenticationResult | IdTokenExpired | TokenExpired.

#[global] Instance EventTypes_eq_dec : EqDecision EventTypes.
Proof. solve_decision. Defined.

(** [StoragePersistenceService]: a key/value store scoped by configuration,
    with typed accessors.  [St] is whatever the store keeps. *)
Module Storage.

Record Service (St : Type) := {
  read : string -> OpenIdConfiguration -> St -> Js.Val;
  write : string -> Js.Val -> OpenIdConfiguration -> St -> St;
  resetAuthStateInStorage : OpenIdConfiguration -> St -> St;
  getAccessToken : OpenIdConfiguration -> St -> Js.Str;
  getIdToken : OpenIdConfiguration -> St -> Js.Str;
  getRefreshToken : OpenIdConfiguration -> St -> Js.Str;
  getAuthenticationResult : OpenIdConfiguration -> St -> Js.Val;
}.

Arguments read {St}.
Arguments write {St}.
Arguments resetAuthStateInStorage {St}.
Arguments getAccessToken {St}.
Arguments getIdToken {St}.
Arguments getRefreshToken {St}.
Arguments getAuthenticationResult {St}.

End Storage.

(** [TokenValidationService], the two decisions the auth state asks for. *)
Module TokenValidation.

Record Service := {
  hasIdTokenExpired : Js.Str -> OpenIdConfiguration -> Z -> bool;
  validateAccessTokenNotExpired : Js.Val -> OpenIdConfiguration -> Z -> bool;
}.

End TokenValidation.

(** ** AuthStateService *)

Module AuthState.

(** One entry of [allConfigsAuthenticated]: [{ configId, isAuthenticated }]. *)
Record ConfigAuthenticatedResult := {
  car_configId : string;
  car_isAuthenticated : bool;
}.

(** [AuthenticatedResult] of [./auth-result]. *)
Record AuthenticatedResult := {
  ar_isAuthenticated : bool;
  ar_allConfigsAuthenticated : list ConfigAuthenticatedResult;
}.

#[global] Instance ConfigAuthenticatedResult_eq_dec : EqDecision ConfigAuthenticatedResult.
Proof. solve_decision. Defined.
#[global] Instance AuthenticatedResult_eq_dec : EqDecision AuthenticatedResult.
Proof. solve_decision. Defined.


(** An [AuthenticatedResult] object on the heap: [===] on two of them
    compares [address], deep equality compares [contents]. *)
Record Obj := {
  address : nat;
  contents : AuthenticatedResult;
}.

Definition strictEquals (x y : Obj) : bool := address x =? address y.

(** [AuthResult] of [../flows/callback-context]: [expires_in?: number], a
    whole number of seconds when present. *)
Record AuthResult := {
  expires_in : option Z;
}.

(** Calls made to the injected services, in program order. *)
Inductive Call :=
| sp_read (key : string) (configuration : OpenIdConfiguration)
| sp_write (key : string) (value : Js.Val) (configuration : OpenIdConfiguration)
| sp_resetAuthStateInStorage (configuration : OpenIdConfiguration)
| sp_getAccessToken (configuration : OpenIdConfiguration)
| sp_getIdToken (configuration : OpenIdConfiguration)
| sp_getRefreshToken (configuration : OpenIdConfiguration)
| sp_getAuthenticationResult (configuration : OpenIdConfiguration)
| tv_hasIdTokenExpired (token : Js.Str) (configuration : OpenIdConfiguration) (skew : Z)
| tv_validateAccessTokenNotExpired (expiresAt : Js.Val)
    (configuration : OpenIdConfiguration) (skew : Z)
| pe_fireEvent (eventType : EventTypes) (payload : bool)
| log_logDebug (configuration : OpenIdConfiguration) (message : string).

#[global] Instance Call_eq_dec : EqDecision Call.
Proof. solve_decision. Defined.

(** The calls that belong to the id-token expiry check proper, and to the
    access-token expiry check. *)
Definition isIdTokenExpiryCall (k : Call) : bool :=
  match k with
  | tv_hasIdTokenExpired _ _ _ => true
  | pe_fireEvent IdTokenExpired _ => true
  | _ => false
  end.

Definition isAccessTokenExpiryCall (k : Call) : bool :=
  match k with
  | sp_read _ _ => true
  | tv_validateAccessTokenNotExpired _ _ _ => true
  | pe_fireEvent TokenExpired _ => true
  | _ => false
  end.

(** What a token getter returns for a stored raw value: the empty string
    for a falsy one, otherwise what [decodeURIComponent] returns or
    throws. *)
Definition returnsDecoded (raw : Js.Str) (out : Js.Completion Js.Str) : Prop :=
  (Js.truthy raw = false -> out = Js.Return (Js.str EmptyString))
  /\ (forall s, raw = Js.str s -> Js.truthy raw = true ->
        out = Js.mapCompletion Js.str (Js.decodeURIComponent s)).

(** The per-subscription state of [distinctUntilChanged()]: the last key it
    let through, and what the subscriber has received so far. *)
Record DistinctUntilChanged := {
  key : option Obj;
  received : list Obj;
}.

(** rxjs [DistinctUntilChangedSubscriber._next] with the default comparator
    [(x, y) => x === y]. *)
Definition distinctNext (value : Obj) (d : DistinctUntilChanged) : DistinctUntilChanged :=
  let result :=
    match key d with
    | Some k => strictEquals k value
    | None => false
    end in
  if result then d
  else {| key := Some value; received := received d ++ [value] |}.


(** [const DEFAULT_AUTHRESULT = { isAuthenticated: false, allConfigsAuthenticated: [] }] *)
Definition DEFAULT_AUTHRESULT : Obj :=
  {| address := 0;
     contents := {| ar_isAuthenticated := false; ar_allConfigsAuthenticated := [] |} |}.

Section Service.

Context {St : Type}.
Variable storagePersistenceService : Storage.Service St.
Variable tokenValidationService : TokenValidation.Service.

(** Everything a call can read or change. *)
Record World := {
  storage : St;
  now : Z;                                  (* [new Date().valueOf()] *)
  nextAddress : nat;                        (* next fresh object *)
  authenticatedInternal : Obj;              (* the subject's current value *)
  subscriptions : list DistinctUntilChanged;  (* of [authenticated$] *)
}.

(** Every object a subscription remembers was allocated before. *)
Definition keysAllocated (w : World) : Prop :=
  Forall (fun d => forall k, key d = Some k -> address k < nextAddress w) (subscriptions w).

(** A method body: from a world to a result, a new world, and the calls it
    made to the collaborators. *)
Definition M (A : Type) : Type := World -> A * World * list Call.

Definition result {A : Type} (r : A * World * list Call) : A := r.1.1.
Definition world {A : Type} (r : A * World * list Call) : World := r.1.2.
Definition calls {A : Type} (r : A * World * list Call) : list Call := r.2.

#[local] Instance M_ret : MRet M := fun A a w => (a, w, []).
#[local] Instance M_bind : MBind M := fun A B f m w =>
  let '(a, w1, t1) := m w in
  let '(b, w2, t2) := f a w1 in
  (b, w2, t1 ++ t2).

Definition call (c : Call) : M unit := fun w => (tt, w, [c]).
Definition getStorage : M St := fun w => (storage w, w, []).
Definition putStorage (st : St) : M unit := fun w =>
  (tt, {| storage := st; now := now w; nextAddress := nextAddress w;
          authenticatedInternal := authenticatedInternal w;
          subscriptions := subscriptions w |}, []).

(** An object literal evaluates to a fresh object. *)
Definition newObject (r : AuthenticatedResult) : M Obj := fun w =>
  ({| address := nextAddress w; contents := r |},
   {| storage := storage w; now := now w; nextAddress := S (nextAddress w);
      authenticatedInternal := authenticatedInternal w;
      subscriptions := subscriptions w |}, []).

(** [this.authenticatedInternal$.next(value)] *)
Definition next (value : Obj) : M unit := fun w =>
  (tt, {| storage := storage w; now := now w; nextAddress := nextAddress w;
          authenticatedInternal := value;
          subscriptions := map (distinctNext value) (subscriptions w) |}, []).

(** [this.authenticated$.subscribe(...)]: a behaviour subject replays its
    current value to the new subscription. *)
Definition subscribe : M unit := fun w =>
  (tt, {| storage := storage w; now := now w; nextAddress := nextAddress w;
          authenticatedInternal := authenticatedInternal w;
          subscriptions :=
            subscriptions w
            ++ [distinctNext (authenticatedInternal w) {| key := None; received := [] |}] |},
   []).

(** [new Date(new Date().toUTCString()).valueOf()]: the UTC string has no
    milliseconds, so parsing it back gives the start of the current second.
    This is what the program computes for a clock in [clockInRange]; for
    earlier or later clocks the date parser reads the year differently (a
    two-digit year becomes 19xx or 20xx) or not at all, and the value
    below is not the program's. *)
Definition utcNow : M Z := fun w => ((now w / 1000 * 1000)%Z, w, []).

(** *** Calls to the storage and to the token validation *)

Definition storageRead (k : string) (configuration : OpenIdConfiguration) : M Js.Val :=
  st ← getStorage;
  call (sp_read k configuration);;
  mret (Storage.read storagePersistenceService k configuration st).

Definition storageWrite (k : string) (value : Js.Val) (configuration : OpenIdConfiguration)
  : M unit :=
  st ← getStorage;
  call (sp_write k value configuration);;
  putStorage (Storage.write storagePersistenceService k value configuration st).

Definition storageReset (configuration : OpenIdConfiguration) : M unit :=
  st ← getStorage;
  call (sp_resetAuthStateInStorage configuration);;
  putStorage (Storage.resetAuthStateInStorage storagePersistenceService configuration st).

Definition storageGetAccessToken (configuration : OpenIdConfiguration) : M Js.Str :=
  st ← getStorage;
  call (sp_getAccessToken configuration);;
  mret (Storage.getAccessToken storagePersistenceService configuration st).

Definition storageGetIdToken (configuration : OpenIdConfiguration) : M Js.Str :=
  st ← getStorage;
  call (sp_getIdToken configuration);;
  mret (Storage.getIdToken storagePersistenceService configuration st).

Definition storageGetRefreshToken (configuration : OpenIdConfiguration) : M Js.Str :=
  st ← getStorage;
  call (sp_getRefreshToken configuration);;
  mret (Storage.getRefreshToken storagePersistenceService configuration st).

Definition storageGetAuthenticationResult (configuration : OpenIdConfiguration) : M Js.Val :=
  st ← getStorage;
  call (sp_getAuthenticationResult configuration);;
  mret (Storage.getAuthenticationResult storagePersistenceService configuration st).

Definition tokenHasIdTokenExpired (token : Js.Str) (configuration : OpenIdConfiguration)
    (skew : Z) : M bool :=
  call (tv_hasIdTokenExpired token configuration skew);;
  mret (TokenValidation.hasIdTokenExpired tokenValidationService token configuration skew).

Definition tokenValidateAccessTokenNotExpired (expiresAt : Js.Val)
    (configuration : OpenIdConfiguration) (skew : Z) : M bool :=
  call (tv_validateAccessTokenNotExpired expiresAt configuration skew);;
  mret (TokenValidation.validateAccessTokenNotExpired tokenValidationService
          expiresAt configuration skew).

(** [Array.prototype.map] with a callback that calls collaborators. *)
Fixpoint mapM {A B : Type} (f : A -> M B) (l : list A) : M (list B) :=
  match l with
  | [] => mret []
  | x :: rest =>
      y ← f x;
      ys ← mapM f rest;
      mret (y :: ys)
  end.

(** [if (b) { m }] *)
Definition when (b : bool) (m : M unit) : M unit := if b then m else mret tt.

(** *** Methods *)

Definition isAuthenticated (configuration : OpenIdConfiguration) : M bool :=
  accessToken ← storageGetAccessToken configuration;
  if Js.truthy accessToken then
    idToken ← storageGetIdToken configuration;
    mret (Js.truthy idToken)
  else mret false.

Definition decodeURIComponentSafely (token : Js.Str) : Js.Completion Js.Str :=
  match token with
  | Js.str s =>
      if Js.truthy token then Js.mapCompletion Js.str (Js.decodeURIComponent s)
      else Js.Return (Js.str EmptyString)
  | _ => Js.Return (Js.str EmptyString)
  end.

Definition checkAllConfigsIfTheyAreAuthenticated (configurations : list OpenIdConfiguration)
  : M Obj :=
  allConfigsAuthenticated ←
    mapM (fun config =>
            b ← isAuthenticated config;
            mret {| car_configId := configId config; car_isAuthenticated := b |})
         configurations;
  let isAuthenticated := forallb (fun x => car_isAuthenticated x) allConfigsAuthenticated in
  newObject {| ar_isAuthenticated := isAuthenticated;
               ar_allConfigsAuthenticated := allConfigsAuthenticated |}.

Definition composeAuthenticatedResult (configurations : list OpenIdConfiguration) : M Obj :=
  match configurations with
  | [configuration] =>
      newObject
        {| ar_isAuthenticated := true;
           ar_allConfigsAuthenticated :=
             [ {| car_configId := configId configuration; car_isAuthenticated := true |} ] |}
  | _ => checkAllConfigsIfTheyAreAuthenticated configurations
  end.

Definition composeUnAuthenticatedResult (configurations : list OpenIdConfiguration) : M Obj :=
  match configurations with
  | [configuration] =>
      newObject
        {| ar_isAuthenticated := false;
           ar_allConfigsAuthenticated :=
             [ {| car_configId := configId configuration; car_isAuthenticated := false |} ] |}
  | _ => checkAllConfigsIfTheyAreAuthenticated configurations
  end.

Definition setAuthenticatedAndFireEvent (configurations : list OpenIdConfiguration) : M unit :=
  result ← composeAuthenticatedResult configurations;
  next result.

Definition setUnauthenticatedAndFireEvent (configuration : OpenIdConfiguration) : M unit :=
  storageReset configuration;;
  result ← composeUnAuthenticatedResult [configuration];
  next result.

(** The sum and the product are the program's when they are
    [Js.exactInDouble] and the clock is in [clockInRange]. *)
Definition persistAccessTokenExpirationTime (authResult : option AuthResult)
    (configuration : OpenIdConfiguration) : M unit :=
  match authResult ≫= expires_in with
  | Some e =>
      if Js.truthyNum (Some e) then
        t ← utcNow;
        let accessTokenExpiryTime := (t + e * 1000)%Z in
        storageWrite "access_token_expires_at" (Js.vnum accessTokenExpiryTime) configuration
      else mret tt
  | None => mret tt
  end.

Definition setAuthorizationData (accessToken : string) (authResult : option AuthResult)
    (configuration : OpenIdConfiguration) : M unit :=
  call (log_logDebug configuration
          (String.append "storing the accessToken '" (String.append accessToken "'")));;
  storageWrite "authzData" (Js.vstr accessToken) configuration;;
  persistAccessTokenExpirationTime authResult configuration;;
  setAuthenticatedAndFireEvent [configuration].

Definition getAccessToken (configuration : OpenIdConfiguration) : M (Js.Completion Js.Str) :=
  authenticated ← isAuthenticated configuration;
  if negb authenticated then mret (Js.Return Js.null)
  else
    token ← storageGetAccessToken configuration;
    mret (decodeURIComponentSafely token).

Definition getIdToken (configuration : OpenIdConfiguration) : M (Js.Completion Js.Str) :=
  authenticated ← isAuthenticated configuration;
  if negb authenticated then mret (Js.Return Js.null)
  else
    token ← storageGetIdToken configuration;
    mret (decodeURIComponentSafely token).

Definition getRefreshToken (configuration : OpenIdConfiguration) : M (Js.Completion Js.Str) :=
  authenticated ← isAuthenticated configuration;
  if negb authenticated then mret (Js.Return Js.null)
  else
    token ← storageGetRefreshToken configuration;
    mret (decodeURIComponentSafely token).

Definition getAuthenticationResult (configuration : OpenIdConfiguration)
  : M (Js.Completion Js.Val) :=
  authenticated ← isAuthenticated configuration;
  if negb authenticated then mret (Js.Return Js.vnull)
  else
    r ← storageGetAuthenticationResult configuration;
    mret (Js.Return r).

Definition hasIdTokenExpiredAndRenewCheckIsEnabled (configuration : OpenIdConfiguration)
  : M bool :=
  if negb (enableIdTokenExpiredValidationInRenew configuration) then mret false
  else
    tokenToCheck ← storageGetIdToken configuration;
    idTokenExpired ←
      tokenHasIdTokenExpired tokenToCheck configuration
        (renewTimeBeforeTokenExpiresInSeconds configuration);
    when idTokenExpired (call (pe_fireEvent IdTokenExpired idTokenExpired));;
    mret idTokenExpired.

Definition hasAccessTokenExpiredIfExpiryExists (configuration : OpenIdConfiguration)
  : M bool :=
  accessTokenExpiresIn ← storageRead "access_token_expires_at" configuration;
  accessTokenHasNotExpired ←
    tokenValidateAccessTokenNotExpired accessTokenExpiresIn configuration
      (renewTimeBeforeTokenExpiresInSeconds configuration);
  let hasExpired := negb accessTokenHasNotExpired in
  when hasExpired (call (pe_fireEvent TokenExpired hasExpired));;
  mret hasExpired.

Definition areAuthStorageTokensValid (configuration : OpenIdConfiguration) : M bool :=
  authenticated ← isAuthenticated configuration;
  if negb authenticated then mret false
  else
    idExpired ← hasIdTokenExpiredAndRenewCheckIsEnabled configuration;
    if idExpired : bool then
      (call (log_logDebug configuration "persisted idToken is expired");;
       mret false)
    else
      accessExpired ← hasAccessTokenExpiredIfExpiryExists configuration;
      if accessExpired : bool then
        (call (log_logDebug configuration "persisted accessToken is expired");;
         mret false)
      else
        (call (log_logDebug configuration "persisted idToken and accessToken are valid");;
         mret true).

(** The world of a freshly constructed service. *)
Definition initialWorld (st : St) (t : Z) : World :=
  {| storage := st; now := t; nextAddress := 1;
     authenticatedInternal := DEFAULT_AUTHRESULT; subscriptions := [] |}.

End Service.

End AuthState.

(** ** An in-memory store and stub validators for concrete runs *)

Module InMemory.

(** Values by configuration id and key. *)
Definition Store : Type := gmap (string * string) Js.Val.

Definition lookupKey (k : string) (c : OpenIdConfiguration) (st : Store) : Js.Val :=
  default Js.vundefined (st !! (configId c, k)).

Definition asString (v : Js.Val) : Js.Str :=
  match v with
  | Js.vstr s => Js.str s
  | Js.vnull => Js.null
  | _ => Js.undefined
  end.

Definition service : Storage.Service Store := {|
  Storage.read := lookupKey;
  Storage.write := fun k v c st => <[(configId c, k) := v]> st;
  Storage.resetAuthStateInStorage := fun c st =>
    delete (configId c, "authzData")
      (delete (configId c, "access_token_expires_at")
         (delete (configId c, "id_token")
            (delete (configId c, "refresh_token")
               (delete (configId c, "authnResult") st))));
  Storage.getAccessToken := fun c st => asString (lookupKey "authzData" c st);
  Storage.getIdToken := fun c st => asString (lookupKey "id_token" c st);
  Storage.getRefreshToken := fun c st => asString (lookupKey "refresh_token" c st);
  Storage.getAuthenticationResult := lookupKey "authnResult";
|}.

(** A token validation that answers the same whatever it is asked. *)
Definition stubTokenValidation (idTokenExpired accessTokenNotExpired : bool)
  : TokenValidation.Service := {|
  TokenValidation.hasIdTokenExpired := fun _ _ _ => idTokenExpired;
  TokenValidation.validateAccessTokenNotExpired := fun _ _ _ => accessTokenNotExpired;
|}.

Definition configA : OpenIdConfiguration :=
  {| configId := "A"; renewTimeBeforeTokenExpiresInSeconds := 0;
     enableIdTokenExpiredValidationInRenew := false |}.

Definition configB : OpenIdConfiguration :=
  {| configId := "B"; renewTimeBeforeTokenExpiresInSeconds := 30;
     enableIdTokenExpiredValidationInRenew := true |}.

(** Both tokens of [c] stored. *)
Definition withTokens (c : OpenIdConfiguration) (access idToken : string) (st : Store)
  : Store :=
  <[(configId c, "authzData") := Js.vstr access]>
    (<[(configId c, "id_token") := Js.vstr idToken]> st).

(** A fresh service over an empty store, the clock at [t]. *)
Definition fresh (t : Z) : @AuthState.World Store := AuthState.initialWorld ∅ t.

(** The same with both tokens of [configA] stored. *)
Definition loggedIn : @AuthState.World Store :=
  AuthState.initialWorld (withTokens configA "at" "idt" ∅) 0.

(** A rule that reports duplicated configuration ids when it is handed the
    array of configurations, and has nothing to say about one configuration. *)
Definition duplicateConfigIdRule : ConfigValidation.Rule := fun arg =>
  match arg with
  | ConfigValidation.configArray cs =>
      {| ConfigValidation.level := ConfigValidation.error;
         ConfigValidation.messages :=
           if bool_decide (NoDup (map configId cs)) then []
           else ["You added multiple configs with the same configId"] |}
  | ConfigValidation.oneConfig _ =>
      {| ConfigValidation.level := ConfigValidation.error;
         ConfigValidation.messages := [] |}
  end.

End InMemory.

(** ** Observers of runs, and sequences of calls on one service *)

Module Session.

Import AuthState.

(** No percent sign anywhere in the string. *)
Fixpoint percentFree (s : string) : bool :=
  match s with
  | EmptyString => true
  | String c rest => negb (Ascii.eqb c "%") && percentFree rest
  end.

(** Calls that change the store. *)
Definition isMutatingCall (k : Call) : bool :=
  match k with
  | sp_write _ _ _ => true
  | sp_resetAuthStateInStorage _ => true
  | _ => false
  end.

(** Calls to the public events service. *)
Definition isFireEvent (k : Call) : bool :=
  match k with
  | pe_fireEvent _ _ => true
  | _ => false
  end.

(** The public methods of the service, and subscribing to
    [authenticated$]. *)
Inductive Op :=
| doSubscribe
| doSetAuthenticatedAndFireEvent (configurations : list OpenIdConfiguration)
| doSetUnauthenticatedAndFireEvent (configuration : OpenIdConfiguration)
| doSetAuthorizationData (accessToken : string) (authResult : option AuthResult)
    (configuration : OpenIdConfiguration)
| doGetAccessToken (configuration : OpenIdConfiguration)
| doGetIdToken (configuration : OpenIdConfiguration)
| doGetRefreshToken (configuration : OpenIdConfiguration)
| doGetAuthenticationResult (configuration : OpenIdConfiguration)
| doAreAuthStorageTokensValid (configuration : OpenIdConfiguration)
| doHasIdTokenExpiredAndRenewCheckIsEnabled (configuration : OpenIdConfiguration)
| doHasAccessTokenExpiredIfExpiryExists (configuration : OpenIdConfiguration)
| doIsAuthenticated (configuration : OpenIdConfiguration).

(** The methods that call [authenticatedInternal$.next]. *)
Definition isPublish (op : Op) : bool :=
  match op with
  | doSetAuthenticatedAndFireEvent _ => true
  | doSetUnauthenticatedAndFireEvent _ => true
  | doSetAuthorizationData _ _ _ => true
  | _ => false
  end.

Section Run.

Context {St : Type}.
Variable sp : Storage.Service St.
Variable tv : TokenValidation.Service.

Definition runOp (op : Op) (w : @World St) : @World St :=
  match op with
  | doSubscribe => world (subscribe w)
  | doSetAuthenticatedAndFireEvent cs => world (setAuthenticatedAndFireEvent sp cs w)
  | doSetUnauthenticatedAndFireEvent c => world (setUnauthenticatedAndFireEvent sp c w)
  | doSetAuthorizationData t ar c => world (setAuthorizationData sp t ar c w)
  | doGetAccessToken c => world (getAccessToken sp c w)
  | doGetIdToken c => world (getIdToken sp c w)
  | doGetRefreshToken c => world (getRefreshToken sp c w)
  | doGetAuthenticationResult c => world (getAuthenticationResult sp c w)
  | doAreAuthStorageTokensValid c => world (areAuthStorageTokensValid sp tv c w)
  | doHasIdTokenExpiredAndRenewCheckIsEnabled c =>
      world (hasIdTokenExpiredAndRenewCheckIsEnabled sp tv c w)
  | doHasAccessTokenExpiredIfExpiryExists c =>
      world (hasAccessTokenExpiredIfExpiryExists sp tv c w)
  | doIsAuthenticated c => world (isAuthenticated sp c w)
  end.

Definition runOps (ops : list Op) (w : @World St) : @World St :=
  foldl (fun w op => runOp op w) w ops.

(** The current value is an allocated object, and every subscription has
    it as its key and as the last notification it received. *)
Definition upToDate (w : @World St) : Prop :=
  address (authenticatedInternal w) < nextAddress w
  /\ Forall (fun d => key d = Some (authenticatedInternal w)
                      /\ last (received d) = Some (authenticatedInternal w))
            (subscriptions w).

(** Every subscription received objects in the order they were allocated,
    all of them allocated already. *)
Definition allocationOrder (w : @World St) : Prop :=
  Forall (fun d => StronglySorted (fun a b => address a < address b) (received d)
                   /\ Forall (fun o => address o < nextAddress w) (received d))
         (subscriptions w).

(** The entry [checkAllConfigsIfTheyAreAuthenticated] builds for one
    configuration. *)
Definition entryOf (w : @World St) (config : OpenIdConfiguration)
  : ConfigAuthenticatedResult :=
  {| car_configId := configId config;
     car_isAuthenticated := result (isAuthenticated sp config w) |}.

End Run.

End Session.

(** * Properties *)

(** ** [decodeURIComponent] on a few inputs *)

Example decode_plain : Js.decodeURIComponent "abc" = Js.Return "abc".
Proof. reflexivity. Qed.

Example decode_space : Js.decodeURIComponent "a%20b%2Fc" = Js.Return "a b/c".
Proof. reflexivity. Qed.

Example decode_lone_percent : Js.decodeURIComponent "100%" = Js.Throw "URIError".
Proof. reflexivity. Qed.

Example decode_overlong : Js.decodeURIComponent "%C0%80" = Js.Throw "URIError".
Proof. reflexivity. Qed.

Example decode_euro :
  Js.decodeURIComponent "%E2%82%AC"
  = Js.Return (String (ascii_of_N 226) (String (ascii_of_N 130) (String (ascii_of_N 172) EmptyString))).
Proof. reflexivity. Qed.

(** ** ConfigValidationService *)

Section ConfigValidationFacts.

Import ConfigValidation.

Lemma foldl_app_concat {A : Type} (l : list (list A)) (acc : list A) :
  foldl (fun acc val => acc ++ val) acc l = acc ++ concat l.
Proof.
  revert acc. induction l as [|x l IH]; intros acc; simpl.
  - by rewrite app_nil_r.
  - by rewrite IH, app_assoc.
Qed.

Lemma getAllMessagesOfType_concat (type : Level) (results : list RuleValidationResult) :
  getAllMessagesOfType type results
  = concat (map messages (filter (fun x => level x = type) results)).
Proof. unfold getAllMessagesOfType. by rewrite foldl_app_concat. Qed.

(** A message of the given level survives the two filters. *)
Lemma elem_of_getAllMessagesOfType (type : Level) (results : list RuleValidationResult)
    (m : string) :
  m ∈ getAllMessagesOfType type (filter (fun x => 0 < length (messages x)) results)
  <-> exists r, r ∈ results /\ level r = type /\ m ∈ messages r.
Proof.
  rewrite getAllMessagesOfType_concat, list_elem_of_In, in_concat.
  split.
  - intros (ms & Hms & Hm). apply in_map_iff in Hms as (r & <- & Hr).
    apply list_elem_of_In, list_elem_of_filter in Hr as [Hl Hr].
    apply list_elem_of_filter in Hr as [_ Hr].
    exists r. split; [done|]. split; [done|]. by apply list_elem_of_In.
  - intros (r & Hr & Hl & Hm). exists (messages r).
    split; [|by apply list_elem_of_In].
    apply in_map_iff. exists r. split; [done|].
    apply list_elem_of_In, list_elem_of_filter. split; [done|].
    apply list_elem_of_filter. split; [|done].
    destruct (messages r); [by apply elem_of_nil in Hm | simpl; lia].
Qed.

Lemma errorCount_zero (results : list RuleValidationResult) (configId : string) :
  (processValidationResultsAndGetErrorCount results configId).1 = 0
  <-> forall r, r ∈ results -> level r = error -> messages r = [].
Proof.
  unfold processValidationResultsAndGetErrorCount. simpl.
  rewrite length_zero_iff_nil. split.
  - intros Hnil r Hr Hl. destruct (messages r) as [|m ms] eqn:E; [done|].
    assert (m ∈ getAllMessagesOfType error
                  (filter (fun x => 0 < length (messages x)) results)) as Hin.
    { apply elem_of_getAllMessagesOfType. exists r. rewrite E. repeat split; auto. left. }
    rewrite Hnil in Hin. by apply elem_of_nil in Hin.
  - intros H.
    destruct (getAllMessagesOfType error _) as [|m ms] eqn:E; [done|].
    assert (m ∈ getAllMessagesOfType error
                  (filter (fun x => 0 < length (messages x)) results)) as Hin.
    { rewrite E. left. }
    apply elem_of_getAllMessagesOfType in Hin as (r & Hr & Hl & Hm).
    rewrite (H r Hr Hl) in Hm. by apply elem_of_nil in Hm.
Qed.

Lemma validateConfigInternal_true (c : OpenIdConfiguration) (rules : list Rule) :
  (validateConfigInternal c rules).1 = true
  <-> forall r, r ∈ map (fun rule => rule (oneConfig c)) rules ->
                level r = error -> messages r = [].
Proof.
  rewrite <- (errorCount_zero _ (configId c)).
  unfold validateConfigInternal.
  destruct (processValidationResultsAndGetErrorCount _ _) as [n log]. simpl.
  apply Nat.eqb_eq.
Qed.

End ConfigValidationFacts.

Section ConfigValidationClaims.

Import ConfigValidation.

Lemma validateConfigs_forallb (rules : list Rule) (cs : list OpenIdConfiguration) :
  (validateConfigs rules cs).1 = forallb (fun c => (validateConfigInternal c rules).1) cs.
Proof.
  unfold validateConfigs. cbn [fst]. rewrite map_map.
  induction cs as [|c cs IH]; [done|]. cbn [map forallb]. rewrite IH.
  by destruct (validateConfigInternal c rules).1.
Qed.

Lemma validateConfigInternal_ext (c : OpenIdConfiguration) (rules rules' : list Rule) :
  Forall2 (fun r r' => forall c, r (oneConfig c) = r' (oneConfig c)) rules rules' ->
  validateConfigInternal c rules' = validateConfigInternal c rules.
Proof.
  intros H. unfold validateConfigInternal.
  replace (map (fun rule => rule (oneConfig c)) rules')
    with (map (fun rule => rule (oneConfig c)) rules); [done|].
  induction H as [|r r' l l' Hr _ IH]; simpl; [done|]. by rewrite IH, Hr.
Qed.

(** C6: [validateConfig] answers true exactly when the rules of [allRules],
    applied to the configuration, produced no error-level message.  Rules
    that only produce warnings validate as true, and one error-level
    message makes the answer false whatever else was produced. *)
Theorem C6_validateConfig_error_free
    (allRules : list Rule) (passedConfig : OpenIdConfiguration) :
  let results := map (fun rule => rule (oneConfig passedConfig)) allRules in
  ((validateConfig allRules passedConfig).1 = true
   <-> forall r, r ∈ results -> level r = error -> messages r = [])
  /\ ((forall r, r ∈ results -> level r = warning)
      -> (validateConfig allRules passedConfig).1 = true)
  /\ (forall r m, r ∈ results -> level r = error -> m ∈ messages r
      -> (validateConfig allRules passedConfig).1 = false).
Proof.
  intros results. unfold validateConfig.
  pose proof (validateConfigInternal_true passedConfig allRules) as Hiff.
  fold results in Hiff. split; [exact Hiff|]. split.
  - intros Hwarn. apply Hiff. intros r Hr Hl.
    rewrite (Hwarn r Hr) in Hl. discriminate.
  - intros r m Hr Hl Hm.
    destruct (validateConfigInternal passedConfig allRules).1 eqn:E; [|done].
    rewrite (proj1 Hiff eq_refl r Hr Hl) in Hm. by apply elem_of_nil in Hm.
Qed.

(** What [validateConfigs] does with the multi-configuration rules: it
    hands every rule of [allMultipleConfigRules] one configuration at a
    time, the element of the pass, and never the array; what a rule would
    answer on the array does not matter.  It returns true iff each
    element's pass produced no error-level message. *)
Lemma validateConfigs_one_config_per_pass
    (allMultipleConfigRules : list Rule) (passedConfigs : list OpenIdConfiguration) :
  (validateConfigs allMultipleConfigRules passedConfigs).1
  = forallb (fun c => (validateConfigInternal c allMultipleConfigRules).1) passedConfigs
  /\ ((validateConfigs allMultipleConfigRules passedConfigs).1 = true
      <-> forall c, c ∈ passedConfigs ->
          forall r, r ∈ map (fun rule => rule (oneConfig c)) allMultipleConfigRules ->
                    level r = error -> messages r = [])
  /\ (forall rules',
        Forall2 (fun r r' => forall c, r (oneConfig c) = r' (oneConfig c))
                allMultipleConfigRules rules' ->
        validateConfigs rules' passedConfigs
        = validateConfigs allMultipleConfigRules passedConfigs).
Proof.
  split; [apply validateConfigs_forallb|]. split.
  - rewrite validateConfigs_forallb, forallb_forall. split.
    + intros H c Hc. apply validateConfigInternal_true, H. by apply list_elem_of_In.
    + intros H c Hc. apply validateConfigInternal_true, H. by apply list_elem_of_In.
  - intros rules' H. unfold validateConfigs.
    replace (map (fun passedConfig => validateConfigInternal passedConfig rules') passedConfigs)
      with (map (fun passedConfig =>
                   validateConfigInternal passedConfig allMultipleConfigRules) passedConfigs);
      [done|].
    apply map_ext. intros c. symmetry. by apply validateConfigInternal_ext.
Qed.

(** C2 fails on the code: the multi-configuration rules never see the
    complete list.  With a rule that reports duplicated configuration ids
    in the array it is given, two configurations of the same id pass
    [validateConfigs], while a pass that showed the rule the whole array,
    as the rule set is meant to be used, rejects them. *)
Theorem C2_duplicated_configs_validate :
  (validateConfigs [InMemory.duplicateConfigIdRule]
     [InMemory.configA; InMemory.configA]).1 = true
  /\ validateConfigs_wholeArray [InMemory.duplicateConfigIdRule]
       [InMemory.configA; InMemory.configA] = false.
Proof. split; vm_compute; reflexivity. Qed.

End ConfigValidationClaims.

(** ** AuthStateService: what each query does *)

(** Unfolds the plumbing of [AuthState.M]. *)
Ltac unfold_M :=
  unfold AuthState.storageRead, AuthState.storageWrite, AuthState.storageReset,
    AuthState.storageGetAccessToken, AuthState.storageGetIdToken,
    AuthState.storageGetRefreshToken, AuthState.storageGetAuthenticationResult,
    AuthState.tokenHasIdTokenExpired, AuthState.tokenValidateAccessTokenNotExpired,
    AuthState.utcNow, AuthState.newObject, AuthState.next, AuthState.when,
    AuthState.getStorage, AuthState.putStorage, AuthState.call,
    mbind, AuthState.M_bind, mret, AuthState.M_ret.

Section AuthStateFacts.

Import AuthState.
#[local] Existing Instance M_bind.
#[local] Existing Instance M_ret.

Context {St : Type}.
Variable sp : Storage.Service St.
Variable tv : TokenValidation.Service.

Lemma isAuthenticated_run (c : OpenIdConfiguration) (w : World) :
  isAuthenticated sp c w
  = (Js.truthy (Storage.getAccessToken sp c (storage w))
     && Js.truthy (Storage.getIdToken sp c (storage w)),
     w,
     sp_getAccessToken c
       :: (if Js.truthy (Storage.getAccessToken sp c (storage w))
           then [sp_getIdToken c] else [])).
Proof.
  unfold isAuthenticated. unfold_M. simpl.
  by destruct (Js.truthy (Storage.getAccessToken sp c (storage w))).
Qed.

Lemma hasIdTokenExpiredAndRenewCheckIsEnabled_run (c : OpenIdConfiguration) (w : World) :
  hasIdTokenExpiredAndRenewCheckIsEnabled sp tv c w
  = if enableIdTokenExpiredValidationInRenew c then
      let token := Storage.getIdToken sp c (storage w) in
      let expired :=
        TokenValidation.hasIdTokenExpired tv token c
          (renewTimeBeforeTokenExpiresInSeconds c) in
      (expired, w,
       [sp_getIdToken c;
        tv_hasIdTokenExpired token c (renewTimeBeforeTokenExpiresInSeconds c)]
       ++ (if expired then [pe_fireEvent IdTokenExpired true] else []))
    else (false, w, []).
Proof.
  unfold hasIdTokenExpiredAndRenewCheckIsEnabled. unfold_M.
  destruct (enableIdTokenExpiredValidationInRenew c); simpl; [|done].
  by destruct (TokenValidation.hasIdTokenExpired tv _ c _).
Qed.

Lemma hasAccessTokenExpiredIfExpiryExists_run (c : OpenIdConfiguration) (w : World) :
  hasAccessTokenExpiredIfExpiryExists sp tv c w
  = let expiresAt := Storage.read sp "access_token_expires_at" c (storage w) in
    let hasExpired :=
      negb (TokenValidation.validateAccessTokenNotExpired tv expiresAt c
              (renewTimeBeforeTokenExpiresInSeconds c)) in
    (hasExpired, w,
     [sp_read "access_token_expires_at" c;
      tv_validateAccessTokenNotExpired expiresAt c (renewTimeBeforeTokenExpiresInSeconds c)]
     ++ (if hasExpired then [pe_fireEvent TokenExpired true] else [])).
Proof.
  unfold hasAccessTokenExpiredIfExpiryExists. unfold_M. simpl.
  by destruct (TokenValidation.validateAccessTokenNotExpired tv _ c _).
Qed.

Lemma areAuthStorageTokensValid_run (c : OpenIdConfiguration) (w : World) :
  areAuthStorageTokensValid sp tv c w
  = let present := result (isAuthenticated sp c w) in
    let idCheck := hasIdTokenExpiredAndRenewCheckIsEnabled sp tv c w in
    let accessCheck := hasAccessTokenExpiredIfExpiryExists sp tv c w in
    if negb present then (false, w, calls (isAuthenticated sp c w))
    else if result idCheck then
      (false, w,
       calls (isAuthenticated sp c w) ++ calls idCheck
       ++ [log_logDebug c "persisted idToken is expired"])
    else if result accessCheck then
      (false, w,
       calls (isAuthenticated sp c w) ++ calls idCheck ++ calls accessCheck
       ++ [log_logDebug c "persisted accessToken is expired"])
    else
      (true, w,
       calls (isAuthenticated sp c w) ++ calls idCheck ++ calls accessCheck
       ++ [log_logDebug c "persisted idToken and accessToken are valid"]).
Proof.
  unfold areAuthStorageTokensValid. unfold mbind at 1, M_bind at 1.
  rewrite isAuthenticated_run. cbn [result calls fst snd].
  destruct (Js.truthy (Storage.getAccessToken sp c (storage w))
            && Js.truthy (Storage.getIdToken sp c (storage w))) eqn:Hp;
    cbn [negb]; [|unfold mret, M_ret; by rewrite app_nil_r].
  unfold mbind at 1, M_bind at 1.
  destruct (hasIdTokenExpiredAndRenewCheckIsEnabled sp tv c w) as [[idExpired w1] t1] eqn:Hid.
  assert (w1 = w) as ->.
  { rewrite hasIdTokenExpiredAndRenewCheckIsEnabled_run in Hid.
    destruct (enableIdTokenExpiredValidationInRenew c); by inversion Hid. }
  cbn [result calls fst snd].
  destruct idExpired.
  { unfold mbind, M_bind, mret, M_ret, call. by rewrite app_nil_r. }
  unfold mbind at 1, M_bind at 1.
  rewrite hasAccessTokenExpiredIfExpiryExists_run. cbn zeta. cbn [result calls fst snd].
  destruct (negb (TokenValidation.validateAccessTokenNotExpired tv _ c _));
    unfold mbind, M_bind, mret, M_ret, call; by rewrite app_nil_r.
Qed.

End AuthStateFacts.

(** ** AuthStateService: token presence, validity and getters *)

Section AuthStateClaims.

Import AuthState.
#[local] Existing Instance M_bind.
#[local] Existing Instance M_ret.

Context {St : Type}.
Variable sp : Storage.Service St.
Variable tv : TokenValidation.Service.

(** C10: presence is decided by truthiness.  [isAuthenticated] is the
    conjunction of the truthiness of the stored access token and of the
    stored id token, so it is false as soon as one of them is the empty
    string, [null] or [undefined], and two stores whose tokens agree in
    truthiness cannot be told apart by it. *)
Theorem C10_isAuthenticated_by_truthiness (c : OpenIdConfiguration) (w : World) :
  let accessToken := Storage.getAccessToken sp c (storage w) in
  let idToken := Storage.getIdToken sp c (storage w) in
  result (isAuthenticated sp c w) = Js.truthy accessToken && Js.truthy idToken
  /\ (Js.truthy accessToken = false \/ Js.truthy idToken = false
      -> result (isAuthenticated sp c w) = false)
  /\ (forall x, Js.truthy x = false
                <-> x = Js.undefined \/ x = Js.null \/ x = Js.str EmptyString)
  /\ (forall w' : World,
        Js.truthy (Storage.getAccessToken sp c (storage w')) = Js.truthy accessToken ->
        Js.truthy (Storage.getIdToken sp c (storage w')) = Js.truthy idToken ->
        result (isAuthenticated sp c w') = result (isAuthenticated sp c w)).
Proof.
  intros accessToken idToken. rewrite isAuthenticated_run. cbn [result fst].
  fold accessToken idToken. split; [done|]. split.
  { intros [-> | ->]; [done | apply andb_false_r]. }
  split.
  { intros [| |s]; simpl.
    - split; auto.
    - split; auto.
    - destruct s as [|a s]; simpl.
      + split; auto.
      + split; [discriminate|]. intros [H|[H|H]]; discriminate. }
  intros w' Ha Hi. rewrite isAuthenticated_run. cbn [result fst]. by rewrite Ha, Hi.
Qed.

(** C5: [areAuthStorageTokensValid] checks presence, then the id-token
    renew-expiry check, then the access-token expiry check, and stops at
    the first that fails.  Without both tokens it answers false after the
    storage reads of [isAuthenticated] alone; with an expired id token it
    answers false without any access-token expiry call; it answers true
    only when all three pass.  It changes nothing. *)
Theorem C5_areAuthStorageTokensValid_short_circuit (c : OpenIdConfiguration) (w : World) :
  let present := result (isAuthenticated sp c w) in
  let idExpired := result (hasIdTokenExpiredAndRenewCheckIsEnabled sp tv c w) in
  let accessExpired := result (hasAccessTokenExpiredIfExpiryExists sp tv c w) in
  let presenceCalls := calls (isAuthenticated sp c w) in
  let idCalls := calls (hasIdTokenExpiredAndRenewCheckIsEnabled sp tv c w) in
  let accessCalls := calls (hasAccessTokenExpiredIfExpiryExists sp tv c w) in
  let run := areAuthStorageTokensValid sp tv c w in
  result run = present && negb idExpired && negb accessExpired
  /\ world run = w
  /\ (present = false ->
      result run = false /\ calls run = presenceCalls)
  /\ (present = true -> idExpired = true ->
      result run = false
      /\ calls run = presenceCalls ++ idCalls
                     ++ [log_logDebug c "persisted idToken is expired"])
  /\ (present = true -> idExpired = false -> accessExpired = true ->
      result run = false
      /\ calls run = presenceCalls ++ idCalls ++ accessCalls
                     ++ [log_logDebug c "persisted accessToken is expired"])
  /\ (present = true -> idExpired = false -> accessExpired = false ->
      result run = true
      /\ calls run = presenceCalls ++ idCalls ++ accessCalls
                     ++ [log_logDebug c "persisted idToken and accessToken are valid"])
  /\ Forall (fun k => isIdTokenExpiryCall k = false /\ isAccessTokenExpiryCall k = false)
            presenceCalls
  /\ Forall (fun k => isAccessTokenExpiryCall k = false) idCalls
  /\ Forall (fun k => isIdTokenExpiryCall k = false) accessCalls.
Proof.
  intros present idExpired accessExpired presenceCalls idCalls accessCalls run.
  assert (run = areAuthStorageTokensValid sp tv c w) as Hrun by done.
  rewrite areAuthStorageTokensValid_run in Hrun. cbn zeta in Hrun.
  fold present idExpired accessExpired presenceCalls idCalls accessCalls in Hrun.
  split; [rewrite Hrun; by destruct present, idExpired, accessExpired|].
  split; [rewrite Hrun; by destruct present, idExpired, accessExpired|].
  split; [intros Hp; by rewrite Hrun, Hp|].
  split; [intros Hp Hi; by rewrite Hrun, Hp, Hi|].
  split; [intros Hp Hi Ha; by rewrite Hrun, Hp, Hi, Ha|].
  split; [intros Hp Hi Ha; by rewrite Hrun, Hp, Hi, Ha|].
  split; [|split].
  - subst presenceCalls. rewrite isAuthenticated_run. cbn [calls snd].
    destruct (Js.truthy _); repeat constructor.
  - subst idCalls. rewrite hasIdTokenExpiredAndRenewCheckIsEnabled_run.
    destruct (enableIdTokenExpiredValidationInRenew c); cbn; [|constructor].
    destruct (TokenValidation.hasIdTokenExpired tv _ c _); repeat constructor.
  - subst accessCalls. rewrite hasAccessTokenExpiredIfExpiryExists_run. cbn.
    destruct (TokenValidation.validateAccessTokenNotExpired tv _ c _); repeat constructor.
Qed.

Lemma getter_run {A : Type} (absent : A) (fetch : M A)
    (c : OpenIdConfiguration) (w : World) :
  (authenticated ← isAuthenticated sp c;
   if negb authenticated then mret absent else fetch) w
  = if result (isAuthenticated sp c w)
    then (result (fetch w), world (fetch w),
          calls (isAuthenticated sp c w) ++ calls (fetch w))
    else (absent, w, calls (isAuthenticated sp c w)).
Proof.
  unfold mbind, M_bind. rewrite isAuthenticated_run. cbn [result world calls fst snd].
  destruct (Js.truthy _ && Js.truthy _); cbn [negb].
  - by destruct (fetch w) as [[a w1] t1].
  - unfold mret, M_ret. by rewrite app_nil_r.
Qed.

Lemma decodeURIComponentSafely_returnsDecoded (token : Js.Str) :
  returnsDecoded token (decodeURIComponentSafely token).
Proof.
  split.
  - intros H. destruct token as [| |s]; [done|done|].
    unfold decodeURIComponentSafely. by rewrite H.
  - intros s -> H. unfold decodeURIComponentSafely. by rewrite H.
Qed.

(** C8: with [enableIdTokenExpiredValidationInRenew] off, the id-token
    check answers false without a single call (no storage read, no token
    validation, no event), so [areAuthStorageTokensValid] is decided by
    presence and the access-token expiry alone, whatever the token
    validation would say about the id token. *)
Theorem C8_id_token_check_skipped_when_disabled (c : OpenIdConfiguration) (w : World) :
  enableIdTokenExpiredValidationInRenew c = false ->
  hasIdTokenExpiredAndRenewCheckIsEnabled sp tv c w = (false, w, [])
  /\ result (areAuthStorageTokensValid sp tv c w)
     = result (isAuthenticated sp c w)
       && TokenValidation.validateAccessTokenNotExpired tv
            (Storage.read sp "access_token_expires_at" c (storage w)) c
            (renewTimeBeforeTokenExpiresInSeconds c)
  /\ Forall (fun k => isIdTokenExpiryCall k = false)
            (calls (areAuthStorageTokensValid sp tv c w)).
Proof.
  intros Hoff.
  assert (hasIdTokenExpiredAndRenewCheckIsEnabled sp tv c w = (false, w, [])) as Hid.
  { rewrite hasIdTokenExpiredAndRenewCheckIsEnabled_run. by rewrite Hoff. }
  split; [exact Hid|].
  rewrite areAuthStorageTokensValid_run. cbn zeta. rewrite Hid. cbn [result calls fst snd].
  rewrite hasAccessTokenExpiredIfExpiryExists_run. cbn zeta. cbn [result calls fst snd].
  rewrite isAuthenticated_run. cbn [result calls fst snd].
  destruct (Js.truthy (Storage.getAccessToken sp c (storage w)));
    destruct (Js.truthy (Storage.getIdToken sp c (storage w)));
    destruct (TokenValidation.validateAccessTokenNotExpired tv _ c _);
    cbn; split; try done; repeat constructor.
Qed.

(** The getters case by case: without both tokens every getter returns
    [null]; with both, a token getter returns the empty string for a falsy
    stored value and otherwise passes on what [decodeURIComponent] returns
    or throws, and [getAuthenticationResult] returns what the store
    holds. *)
Lemma token_getters_by_case (c : OpenIdConfiguration) (w : World) :
  let authenticated := result (isAuthenticated sp c w) in
  (authenticated = false ->
   result (getAccessToken sp c w) = Js.Return Js.null
   /\ result (getIdToken sp c w) = Js.Return Js.null
   /\ result (getRefreshToken sp c w) = Js.Return Js.null
   /\ result (getAuthenticationResult sp c w) = Js.Return Js.vnull)
  /\ (authenticated = true ->
      returnsDecoded (Storage.getAccessToken sp c (storage w))
                     (result (getAccessToken sp c w))
      /\ returnsDecoded (Storage.getIdToken sp c (storage w))
                        (result (getIdToken sp c w))
      /\ returnsDecoded (Storage.getRefreshToken sp c (storage w))
                        (result (getRefreshToken sp c w))
      /\ result (getAuthenticationResult sp c w)
         = Js.Return (Storage.getAuthenticationResult sp c (storage w))).
Proof.
  intros authenticated.
  unfold getAccessToken, getIdToken, getRefreshToken, getAuthenticationResult.
  rewrite !getter_run. fold authenticated.
  split; intros ->; cbn [result fst]; [done|].
  repeat split; try apply decodeURIComponentSafely_returnsDecoded.
Qed.

End AuthStateClaims.

(** ** AuthStateService: composing and publishing the aggregate *)

Section AuthStatePublish.

Import AuthState.
#[local] Existing Instance M_bind.
#[local] Existing Instance M_ret.

Context {St : Type}.
Variable sp : Storage.Service St.



Lemma checkAll_single (c : OpenIdConfiguration) (w : World) :
  contents (result (checkAllConfigsIfTheyAreAuthenticated sp [c] w))
  = {| ar_isAuthenticated := result (isAuthenticated sp c w);
       ar_allConfigsAuthenticated :=
         [ {| car_configId := configId c;
              car_isAuthenticated := result (isAuthenticated sp c w) |} ] |}.
Proof.
  unfold checkAllConfigsIfTheyAreAuthenticated, mapM, mbind, M_bind, mret, M_ret, newObject.
  destruct (isAuthenticated sp c w) as [[b w1] t1]. cbn. by rewrite andb_true_r.
Qed.



Lemma setAuthorizationData_run (accessToken : string) (authResult : option AuthResult)
    (c : OpenIdConfiguration) (w : World) :
  let st1 := Storage.write sp "authzData" (Js.vstr accessToken) c (storage w) in
  let written :=
    match authResult ≫= expires_in with
    | Some e =>
        if Js.truthyNum (Some e)
        then Some (Js.vnum (now w / 1000 * 1000 + e * 1000)%Z)
        else None
    | None => None
    end in
  let o :=
    {| address := nextAddress w;
       contents :=
         {| ar_isAuthenticated := true;
            ar_allConfigsAuthenticated :=
              [ {| car_configId := configId c; car_isAuthenticated := true |} ] |} |} in
  setAuthorizationData sp accessToken authResult c w
  = (tt,
     {| storage :=
          match written with
          | Some v => Storage.write sp "access_token_expires_at" v c st1
          | None => st1
          end;
        now := now w;
        nextAddress := S (nextAddress w);
        authenticatedInternal := o;
        subscriptions := map (distinctNext o) (subscriptions w) |},
     [log_logDebug c
        (String.append "storing the accessToken '" (String.append accessToken "'"));
      sp_write "authzData" (Js.vstr accessToken) c]
     ++ match written with
        | Some v => [sp_write "access_token_expires_at" v c]
        | None => []
        end).
Proof.
  unfold setAuthorizationData, persistAccessTokenExpirationTime.
  destruct (authResult ≫= expires_in) as [e|];
    [destruct (Js.truthyNum (Some e))|];
    unfold setAuthenticatedAndFireEvent, composeAuthenticatedResult; unfold_M;
    reflexivity.
Qed.

(** C1 (as the code has it): for one configuration
    [composeAuthenticatedResult] takes the shortcut and answers
    authenticated without looking at the store, while
    [checkAllConfigsIfTheyAreAuthenticated] answers what [isAuthenticated]
    finds there; the two agree exactly when the configuration has both
    tokens stored. *)
Theorem C1_single_config_shortcut (c : OpenIdConfiguration) (w : World) :
  contents (result (composeAuthenticatedResult sp [c] w))
  = {| ar_isAuthenticated := true;
       ar_allConfigsAuthenticated :=
         [ {| car_configId := configId c; car_isAuthenticated := true |} ] |}
  /\ contents (result (checkAllConfigsIfTheyAreAuthenticated sp [c] w))
     = {| ar_isAuthenticated := result (isAuthenticated sp c w);
          ar_allConfigsAuthenticated :=
            [ {| car_configId := configId c;
                 car_isAuthenticated := result (isAuthenticated sp c w) |} ] |}
  /\ (contents (result (composeAuthenticatedResult sp [c] w))
      = contents (result (checkAllConfigsIfTheyAreAuthenticated sp [c] w))
      <-> result (isAuthenticated sp c w) = true).
Proof.
  split; [done|]. split; [apply checkAll_single|].
  rewrite checkAll_single. cbn [composeAuthenticatedResult newObject result contents fst].
  split.
  - intros H. by injection H as <-.
  - by intros ->.
Qed.



End AuthStatePublish.

(** ** The change stream *)

Section ChangeStream.

Import AuthState.
#[local] Existing Instance M_bind.
#[local] Existing Instance M_ret.

Context {St : Type}.
Variable sp : Storage.Service St.

Lemma distinctNext_fresh (o : Obj) (d : DistinctUntilChanged) :
  (forall k, key d = Some k -> address k <> address o) ->
  distinctNext o d = {| key := Some o; received := received d ++ [o] |}.
Proof.
  intros H. unfold distinctNext, strictEquals. destruct (key d) as [k|]; [|done].
  destruct (Nat.eqb_spec (address k) (address o)) as [E|_]; [|done].
  by destruct (H k eq_refl).
Qed.

(** Two calls in a row for the same single configuration hand every
    subscription two objects of equal contents, one after the other. *)
Lemma setAuthenticatedAndFireEvent_twice (c : OpenIdConfiguration) (w : World) :
  keysAllocated w ->
  let r := {| ar_isAuthenticated := true;
              ar_allConfigsAuthenticated :=
                [ {| car_configId := configId c; car_isAuthenticated := true |} ] |} in
  let o1 := {| address := nextAddress w; contents := r |} in
  let o2 := {| address := S (nextAddress w); contents := r |} in
  let w1 := world (setAuthenticatedAndFireEvent sp [c] w) in
  let w2 := world (setAuthenticatedAndFireEvent sp [c] w1) in
  map received (subscriptions w2)
  = map (fun d => received d ++ [o1; o2]) (subscriptions w).
Proof.
  intros Hkeys r o1 o2 w1 w2. subst w1 w2.
  unfold setAuthenticatedAndFireEvent, composeAuthenticatedResult, mbind, M_bind,
    newObject, next, world.
  cbn. fold r o1 o2.
  rewrite !map_map. apply map_ext_in. intros d Hd.
  unfold keysAllocated in Hkeys. rewrite Forall_forall in Hkeys.
  rewrite (distinctNext_fresh o1 d).
  - rewrite distinctNext_fresh; cbn.
    + by rewrite <- app_assoc.
    + intros k [= <-]. cbn. lia.
  - intros k Hk. apply list_elem_of_In in Hd.
    specialize (Hkeys d Hd k Hk). cbn. lia.
Qed.

End ChangeStream.

(** ** Concrete runs on the in-memory store *)

Section ConcreteRuns.

Import AuthState InMemory.

(** C1 (as the spec words it) fails: with nothing stored for the
    configuration the shortcut says authenticated and the general path
    says not authenticated. *)
Lemma C1_shortcut_counterexample :
  contents (result (composeAuthenticatedResult service [configA] (fresh 0)))
  <> contents (result (checkAllConfigsIfTheyAreAuthenticated service [configA] (fresh 0))).
Proof. vm_compute. discriminate. Qed.

(** C3 fails on the code: a subscriber of [authenticated$] that has seen
    the default value receives, from two calls of
    [setAuthenticatedAndFireEvent] with the same single configuration, two
    notifications in a row with structurally equal aggregates.  The two
    are different objects, which is all [distinctUntilChanged()] looks at. *)
Theorem C3_equal_aggregate_delivered_twice :
  let r := {| ar_isAuthenticated := true;
              ar_allConfigsAuthenticated :=
                [ {| car_configId := "A"; car_isAuthenticated := true |} ] |} in
  let w1 := world (subscribe (fresh 0)) in
  let w2 := world (setAuthenticatedAndFireEvent service [configA] w1) in
  let w3 := world (setAuthenticatedAndFireEvent service [configA] w2) in
  map (fun d => map contents (received d)) (subscriptions w3)
  = [[contents DEFAULT_AUTHRESULT; r; r]]
  /\ map (fun d => map address (received d)) (subscriptions w3) = [[0; 1; 2]].
Proof. split; vm_compute; reflexivity. Qed.




(** C9 fails on the code: with both tokens stored, a stored token that is
    not a well-formed percent-encoding makes its getter throw.
    [decodeURIComponentSafely] guards against a falsy token only, and the
    [URIError] of [decodeURIComponent] goes through the getter to the
    caller. *)
Theorem C9_malformed_token_throws :
  let st := <[("A", "refresh_token") := Js.vstr "%E0%A4%A"]>
              (withTokens configA "100%" "%zz" ∅) in
  let w := initialWorld st 0 in
  result (isAuthenticated service configA w) = true
  /\ result (getAccessToken service configA w) = Js.Throw "URIError"
  /\ result (getIdToken service configA w) = Js.Throw "URIError"
  /\ result (getRefreshToken service configA w) = Js.Throw "URIError".
Proof. cbv zeta. repeat split; vm_compute; reflexivity. Qed.

(** C8 at a concrete input: the flag is off, the token validation calls
    every id token expired, and the tokens are still valid. *)
Lemma C8_witness :
  enableIdTokenExpiredValidationInRenew configA = false
  /\ result (areAuthStorageTokensValid service (stubTokenValidation true true)
               configA loggedIn) = true.
Proof.
  split; [reflexivity|].
  destruct (C8_id_token_check_skipped_when_disabled service
              (stubTokenValidation true true) configA loggedIn eq_refl) as (_ & H & _).
  rewrite H. vm_compute. reflexivity.
Defined.

(** A stored token that is not a well-formed escape makes the getter throw. *)
Example getAccessToken_malformed :
  result (getAccessToken service configA
            (initialWorld (withTokens configA "100%" "idt" ∅) 0))
  = Js.Throw "URIError".
Proof. vm_compute. reflexivity. Qed.

Example getAccessToken_decoded :
  result (getAccessToken service configA
            (initialWorld (withTokens configA "a%2Fb" "idt" ∅) 0))
  = Js.Return (Js.str "a/b").
Proof. vm_compute. reflexivity. Qed.

(** [areAuthStorageTokensValid] on three stores of [configB], whose
    id-token check is enabled. *)
Example areAuthStorageTokensValid_no_tokens :
  areAuthStorageTokensValid service (stubTokenValidation true false) configB (fresh 0)
  = (false, fresh 0, [sp_getAccessToken configB]).
Proof. vm_compute. reflexivity. Qed.

Example areAuthStorageTokensValid_id_token_expired :
  let w := initialWorld (withTokens configB "at" "idt" ∅) 0 in
  let run := areAuthStorageTokensValid service (stubTokenValidation true true) configB w in
  result run = false
  /\ calls run
     = [sp_getAccessToken configB; sp_getIdToken configB;
        sp_getIdToken configB; tv_hasIdTokenExpired (Js.str "idt") configB 30;
        pe_fireEvent IdTokenExpired true;
        log_logDebug configB "persisted idToken is expired"].
Proof. split; vm_compute; reflexivity. Qed.

Example areAuthStorageTokensValid_all_pass :
  let w := initialWorld (withTokens configB "at" "idt" ∅) 0 in
  let run := areAuthStorageTokensValid service (stubTokenValidation false true) configB w in
  result run = true
  /\ calls run
     = [sp_getAccessToken configB; sp_getIdToken configB;
        sp_getIdToken configB; tv_hasIdTokenExpired (Js.str "idt") configB 30;
        sp_read "access_token_expires_at" configB;
        tv_validateAccessTokenNotExpired Js.vundefined configB 30;
        log_logDebug configB "persisted idToken and accessToken are valid"].
Proof. split; vm_compute; reflexivity. Qed.

(** [setUnauthenticatedAndFireEvent] clears the store and publishes the
    configuration as not authenticated. *)
Example setUnauthenticatedAndFireEvent_run :
  let run := setUnauthenticatedAndFireEvent service configA loggedIn in
  storage (world run) = ∅
  /\ contents (authenticatedInternal (world run))
     = {| ar_isAuthenticated := false;
          ar_allConfigsAuthenticated :=
            [ {| car_configId := "A"; car_isAuthenticated := false |} ] |}.
Proof. split; vm_compute; reflexivity. Qed.

End ConcreteRuns.

(** ** ConfigValidationService: what is logged, and how runs compose *)

Section ConfigValidationLog.

Import ConfigValidation.

Lemma concat_messages_nonempty (type : Level) (results : list RuleValidationResult) :
  concat (map messages
            (filter (fun x => level x = type)
                    (filter (fun x => 0 < length (messages x)) results)))
  = concat (map messages (filter (fun x => level x = type) results)).
Proof.
  induction results as [|r rs IH]; [done|].
  rewrite (filter_cons (fun x => 0 < length (messages x))).
  rewrite (filter_cons (fun x => level x = type) r rs).
  destruct (decide (0 < length (messages r))) as [Hlen|Hlen].
  - rewrite filter_cons. destruct (decide (level r = type)); simpl; by rewrite IH.
  - destruct (decide (level r = type)); [|done]. simpl.
    destruct (messages r); [done | simpl in Hlen; lia].
Qed.

Lemma processValidationResults_run (results : list RuleValidationResult)
    (configId : string) :
  let errors := concat (map messages (filter (fun x => level x = error) results)) in
  let warnings := concat (map messages (filter (fun x => level x = warning) results)) in
  processValidationResultsAndGetErrorCount results configId
  = (length errors, map (logError configId) errors ++ map (logWarning configId) warnings).
Proof.
  unfold processValidationResultsAndGetErrorCount.
  by rewrite !getAllMessagesOfType_concat, !concat_messages_nonempty.
Qed.

(** X1: The validator logs every error message, in rule order and then in
    message order, and after them every warning in the same order, all
    under the configuration id it was given; it counts the error
    messages.  Dropping the results without messages first changes
    nothing. *)
Theorem processValidationResults_log (results : list RuleValidationResult)
    (configId : string) :
  let errors := concat (map messages (filter (fun x => level x = error) results)) in
  let warnings := concat (map messages (filter (fun x => level x = warning) results)) in
  processValidationResultsAndGetErrorCount results configId
  = (length errors, map (logError configId) errors ++ map (logWarning configId) warnings).
Proof. apply processValidationResults_run. Qed.

(** X2: No message a rule produced is dropped or logged twice: the log has
    one entry per message. *)
Theorem processValidationResults_logs_every_message
    (results : list RuleValidationResult) (configId : string) :
  length (processValidationResultsAndGetErrorCount results configId).2
  = length (concat (map messages results)).
Proof.
  rewrite processValidationResults_run. cbn [snd].
  rewrite length_app, !length_map.
  induction results as [|r rs IH]; [done|].
  rewrite !filter_cons. cbn [map concat]. rewrite length_app, <- IH.
  destruct r as [[] ms]; cbn [level messages];
    repeat (destruct (decide _); try congruence);
    cbn [map concat messages]; rewrite ?length_app; cbn [messages]; lia.
Qed.

Lemma validateConfigInternal_log (c : OpenIdConfiguration) (rules : list Rule) :
  let results := map (fun rule => rule (oneConfig c)) rules in
  validateConfigInternal c rules
  = (bool_decide (concat (map messages (filter (fun x => level x = error) results)) = []),
     map (logError (configId c))
         (concat (map messages (filter (fun x => level x = error) results)))
     ++ map (logWarning (configId c))
            (concat (map messages (filter (fun x => level x = warning) results)))).
Proof.
  intros results. unfold validateConfigInternal. fold results.
  rewrite processValidationResults_run. cbn zeta. f_equal.
  destruct (concat _) as [|m ms]; done.
Qed.

(** X3: [validateConfig] answers false exactly when it logged an error, and
    every entry of its log is filed under the id of the configuration it
    was given. *)
Theorem validateConfig_false_iff_error_logged (allRules : list Rule)
    (passedConfig : OpenIdConfiguration) :
  ((validateConfig allRules passedConfig).1 = false
   <-> exists m, logError (configId passedConfig) m ∈ (validateConfig allRules passedConfig).2)
  /\ Forall (fun k => exists m, k = logError (configId passedConfig) m
                              \/ k = logWarning (configId passedConfig) m)
            (validateConfig allRules passedConfig).2.
Proof.
  unfold validateConfig. rewrite validateConfigInternal_log. cbn zeta. cbn [fst snd].
  set (errors := concat (map messages (filter (fun x => level x = error) _))).
  set (warnings := concat (map messages (filter (fun x => level x = warning) _))).
  split.
  - split.
    + intros H. destruct errors as [|m ms]; [done|]. exists m. cbn. left.
    + intros [m Hm]. apply elem_of_app in Hm as [Hm|Hm].
      * apply list_elem_of_fmap in Hm as (m' & _ & Hm').
        destruct errors; [by apply elem_of_nil in Hm' | done].
      * apply list_elem_of_fmap in Hm as (m' & Heq & _). discriminate.
  - apply Forall_app. split; apply Forall_forall; intros k Hk;
      apply list_elem_of_fmap in Hk as (m & -> & _); exists m; auto.
Qed.

(** X4: Validating a concatenation of configuration lists is validating each
    part: the answers are conjoined and the logs follow one another.  The
    empty list validates, with nothing logged. *)
Theorem validateConfigs_app (allMultipleConfigRules : list Rule)
    (cs1 cs2 : list OpenIdConfiguration) :
  validateConfigs allMultipleConfigRules (cs1 ++ cs2)
  = ((validateConfigs allMultipleConfigRules cs1).1
     && (validateConfigs allMultipleConfigRules cs2).1,
     (validateConfigs allMultipleConfigRules cs1).2
     ++ (validateConfigs allMultipleConfigRules cs2).2)
  /\ validateConfigs allMultipleConfigRules [] = (true, []).
Proof.
  split; [|done]. unfold validateConfigs. cbn [fst snd].
  by rewrite !map_app, forallb_app, concat_app.
Qed.

(** X5: The answer of [validateConfigs] does not depend on the order in which
    the configurations are listed (the log does). *)
Theorem validateConfigs_permutation (allMultipleConfigRules : list Rule)
    (cs cs' : list OpenIdConfiguration) :
  Permutation cs cs' ->
  (validateConfigs allMultipleConfigRules cs').1
  = (validateConfigs allMultipleConfigRules cs).1.
Proof.
  intros Hperm. rewrite !validateConfigs_forallb.
  induction Hperm as [|x l l' _ IH|x y l|l l' l'' _ IH1 _ IH2]; cbn [forallb].
  - done.
  - by rewrite IH.
  - by rewrite !andb_assoc, (andb_comm (validateConfigInternal x _).1).
  - by rewrite IH2, IH1.
Qed.

(** Two distinct configurations, listed in either order. *)
Lemma validateConfigs_permutation_witness :
  Permutation [InMemory.configA; InMemory.configB] [InMemory.configB; InMemory.configA]
  /\ (validateConfigs [InMemory.duplicateConfigIdRule]
        [InMemory.configB; InMemory.configA]).1
     = (validateConfigs [InMemory.duplicateConfigIdRule]
          [InMemory.configA; InMemory.configB]).1.
Proof.
  split; [apply perm_swap|].
  apply (validateConfigs_permutation [InMemory.duplicateConfigIdRule]
           [InMemory.configA; InMemory.configB] [InMemory.configB; InMemory.configA]).
  apply perm_swap.
Defined.

End ConfigValidationLog.

(** ** AuthStateService: the general aggregation path *)

Section AuthStateAggregate.

Import AuthState Session.
#[local] Existing Instance M_bind.
#[local] Existing Instance M_ret.

Context {St : Type}.
Variable sp : Storage.Service St.
Variable tv : TokenValidation.Service.

Lemma mapM_entries (cs : list OpenIdConfiguration) (w : World) :
  mapM (fun config =>
          b ← isAuthenticated sp config;
          mret {| car_configId := configId config; car_isAuthenticated := b |}) cs w
  = (map (entryOf sp w) cs, w, concat (map (fun c => calls (isAuthenticated sp c w)) cs)).
Proof.
  induction cs as [|c cs IH]; [done|].
  cbn [mapM map concat]. unfold mbind at 1, M_bind at 1.
  unfold mbind at 1, M_bind at 1. rewrite isAuthenticated_run.
  unfold mret at 1, M_ret at 1. cbn [fst snd].
  unfold mbind at 1, M_bind at 1. rewrite IH.
  unfold mret, M_ret, entryOf. rewrite isAuthenticated_run. cbn [result calls fst snd].
  by rewrite !app_nil_r.
Qed.

Lemma checkAll_run (cs : list OpenIdConfiguration) (w : World) :
  checkAllConfigsIfTheyAreAuthenticated sp cs w
  = ({| address := nextAddress w;
        contents :=
          {| ar_isAuthenticated :=
               forallb (fun x => car_isAuthenticated x) (map (entryOf sp w) cs);
             ar_allConfigsAuthenticated := map (entryOf sp w) cs |} |},
     {| storage := storage w; now := now w; nextAddress := S (nextAddress w);
        authenticatedInternal := authenticatedInternal w;
        subscriptions := subscriptions w |},
     concat (map (fun c => calls (isAuthenticated sp c w)) cs)).
Proof.
  unfold checkAllConfigsIfTheyAreAuthenticated. unfold mbind at 1, M_bind at 1.
  rewrite mapM_entries. unfold newObject. by rewrite app_nil_r.
Qed.

Lemma forallb_entryOf (cs : list OpenIdConfiguration) (w : World) :
  forallb (fun x => car_isAuthenticated x) (map (entryOf sp w) cs)
  = forallb (fun c => Js.truthy (Storage.getAccessToken sp c (storage w))
                      && Js.truthy (Storage.getIdToken sp c (storage w))) cs.
Proof.
  induction cs as [|c cs IH]; [done|]. cbn [map forallb]. rewrite IH.
  unfold entryOf at 1. by rewrite isAuthenticated_run.
Qed.

(** X6: [checkAllConfigsIfTheyAreAuthenticated] answers with one entry per
    configuration, in the order given and under its id, each flagged by
    whether both tokens of that configuration are stored; the aggregate
    is their conjunction.  It reads the store once per configuration (the
    calls of [isAuthenticated], in order), leaves store, current value and
    subscriptions as they were, and returns a fresh object. *)
Theorem checkAllConfigsIfTheyAreAuthenticated_entries
    (configurations : list OpenIdConfiguration) (w : World) :
  let run := checkAllConfigsIfTheyAreAuthenticated sp configurations w in
  let present c := Js.truthy (Storage.getAccessToken sp c (storage w))
                   && Js.truthy (Storage.getIdToken sp c (storage w)) in
  ar_allConfigsAuthenticated (contents (result run))
  = map (fun c => {| car_configId := configId c; car_isAuthenticated := present c |})
        configurations
  /\ ar_isAuthenticated (contents (result run)) = forallb present configurations
  /\ address (result run) = nextAddress w
  /\ storage (world run) = storage w
  /\ authenticatedInternal (world run) = authenticatedInternal w
  /\ subscriptions (world run) = subscriptions w
  /\ calls run = concat (map (fun c => calls (isAuthenticated sp c w)) configurations).
Proof.
  intros run present. subst run. rewrite checkAll_run. cbn [result world calls fst snd].
  cbn [contents address storage authenticatedInternal subscriptions
       ar_allConfigsAuthenticated ar_isAuthenticated].
  rewrite forallb_entryOf. repeat split; try done.
  apply map_ext. intros c. unfold entryOf. by rewrite isAuthenticated_run.
Qed.

Lemma compose_not_single (cs : list OpenIdConfiguration) :
  length cs <> 1 ->
  composeAuthenticatedResult sp cs = checkAllConfigsIfTheyAreAuthenticated sp cs
  /\ composeUnAuthenticatedResult sp cs = checkAllConfigsIfTheyAreAuthenticated sp cs.
Proof. destruct cs as [|c [|c' cs]]; done. Qed.

(** X7: Off the single-configuration shortcut the two compose functions are
    the same function: for a list that does not have exactly one element,
    [composeUnAuthenticatedResult] answers what [composeAuthenticatedResult]
    answers, and [setAuthenticatedAndFireEvent] publishes an aggregate
    that is authenticated iff every listed configuration has both tokens
    stored. *)
Theorem compose_off_the_shortcut (configurations : list OpenIdConfiguration) (w : World) :
  length configurations <> 1 ->
  composeUnAuthenticatedResult sp configurations w
  = composeAuthenticatedResult sp configurations w
  /\ ar_isAuthenticated
       (contents (authenticatedInternal
                    (world (setAuthenticatedAndFireEvent sp configurations w))))
     = forallb (fun c => Js.truthy (Storage.getAccessToken sp c (storage w))
                         && Js.truthy (Storage.getIdToken sp c (storage w)))
               configurations
  /\ storage (world (setAuthenticatedAndFireEvent sp configurations w)) = storage w.
Proof.
  intros Hlen. destruct (compose_not_single configurations Hlen) as [Ha Hu].
  rewrite Ha, Hu. split; [done|].
  unfold setAuthenticatedAndFireEvent, mbind, M_bind. rewrite Ha, checkAll_run.
  cbn. by rewrite forallb_entryOf.
Qed.

End AuthStateAggregate.

(** ** AuthStateService: queries, getters and events *)

Section AuthStateQueries.

Import AuthState Session.
#[local] Existing Instance M_bind.
#[local] Existing Instance M_ret.

Context {St : Type}.
Variable sp : Storage.Service St.
Variable tv : TokenValidation.Service.

Lemma getAccessToken_run (c : OpenIdConfiguration) (w : World) :
  getAccessToken sp c w
  = if result (isAuthenticated sp c w)
    then (decodeURIComponentSafely (Storage.getAccessToken sp c (storage w)), w,
          calls (isAuthenticated sp c w) ++ [sp_getAccessToken c])
    else (Js.Return Js.null, w, calls (isAuthenticated sp c w)).
Proof. unfold getAccessToken. by rewrite getter_run. Qed.

Lemma getIdToken_run (c : OpenIdConfiguration) (w : World) :
  getIdToken sp c w
  = if result (isAuthenticated sp c w)
    then (decodeURIComponentSafely (Storage.getIdToken sp c (storage w)), w,
          calls (isAuthenticated sp c w) ++ [sp_getIdToken c])
    else (Js.Return Js.null, w, calls (isAuthenticated sp c w)).
Proof. unfold getIdToken. by rewrite getter_run. Qed.

Lemma getRefreshToken_run (c : OpenIdConfiguration) (w : World) :
  getRefreshToken sp c w
  = if result (isAuthenticated sp c w)
    then (decodeURIComponentSafely (Storage.getRefreshToken sp c (storage w)), w,
          calls (isAuthenticated sp c w) ++ [sp_getRefreshToken c])
    else (Js.Return Js.null, w, calls (isAuthenticated sp c w)).
Proof. unfold getRefreshToken. by rewrite getter_run. Qed.

Lemma getAuthenticationResult_run (c : OpenIdConfiguration) (w : World) :
  getAuthenticationResult sp c w
  = if result (isAuthenticated sp c w)
    then (Js.Return (Storage.getAuthenticationResult sp c (storage w)), w,
          calls (isAuthenticated sp c w) ++ [sp_getAuthenticationResult c])
    else (Js.Return Js.vnull, w, calls (isAuthenticated sp c w)).
Proof. unfold getAuthenticationResult. by rewrite getter_run. Qed.

Lemma isAuthenticated_calls_read_only (c : OpenIdConfiguration) (w : World) :
  Forall (fun k => isMutatingCall k = false /\ isFireEvent k = false)
         (calls (isAuthenticated sp c w)).
Proof.
  rewrite isAuthenticated_run. cbn [calls snd].
  destruct (Js.truthy _); repeat constructor.
Qed.

Lemma idCheck_calls_read_only (c : OpenIdConfiguration) (w : World) :
  Forall (fun k => isMutatingCall k = false)
         (calls (hasIdTokenExpiredAndRenewCheckIsEnabled sp tv c w)).
Proof.
  rewrite hasIdTokenExpiredAndRenewCheckIsEnabled_run.
  destruct (enableIdTokenExpiredValidationInRenew c); cbn; [|constructor].
  destruct (TokenValidation.hasIdTokenExpired tv _ c _); repeat constructor.
Qed.

Lemma accessCheck_calls_read_only (c : OpenIdConfiguration) (w : World) :
  Forall (fun k => isMutatingCall k = false)
         (calls (hasAccessTokenExpiredIfExpiryExists sp tv c w)).
Proof.
  rewrite hasAccessTokenExpiredIfExpiryExists_run. cbn.
  destruct (TokenValidation.validateAccessTokenNotExpired tv _ c _); repeat constructor.
Qed.

Lemma idCheck_world (c : OpenIdConfiguration) (w : World) :
  world (hasIdTokenExpiredAndRenewCheckIsEnabled sp tv c w) = w.
Proof.
  rewrite hasIdTokenExpiredAndRenewCheckIsEnabled_run.
  by destruct (enableIdTokenExpiredValidationInRenew c).
Qed.

Lemma areAuthStorageTokensValid_world (c : OpenIdConfiguration) (w : World) :
  world (areAuthStorageTokensValid sp tv c w) = w.
Proof.
  rewrite areAuthStorageTokensValid_run. cbn zeta.
  destruct (result (isAuthenticated sp c w)); cbn [negb]; [|done].
  destruct (result (hasIdTokenExpiredAndRenewCheckIsEnabled sp tv c w)); [done|].
  by destruct (result (hasAccessTokenExpiredIfExpiryExists sp tv c w)).
Qed.

Lemma getters_world (c : OpenIdConfiguration) (w : World) :
  world (isAuthenticated sp c w) = w
  /\ world (getAccessToken sp c w) = w
  /\ world (getIdToken sp c w) = w
  /\ world (getRefreshToken sp c w) = w
  /\ world (getAuthenticationResult sp c w) = w
  /\ world (hasAccessTokenExpiredIfExpiryExists sp tv c w) = w.
Proof.
  rewrite getAccessToken_run, getIdToken_run, getRefreshToken_run,
    getAuthenticationResult_run, hasAccessTokenExpiredIfExpiryExists_run.
  split; [by rewrite isAuthenticated_run|].
  destruct (result (isAuthenticated sp c w)); done.
Qed.

(** X8: Every query leaves the world as it found it and makes no call that
    changes the store: [isAuthenticated], the four getters, the two expiry
    checks and [areAuthStorageTokensValid] neither write, nor reset, nor
    publish. *)
Theorem queries_change_nothing (c : OpenIdConfiguration) (w : World) :
  let readOnly {A : Type} (run : A * World * list Call) :=
    world run = w /\ Forall (fun k => isMutatingCall k = false) (calls run) in
  readOnly (isAuthenticated sp c w)
  /\ readOnly (getAccessToken sp c w)
  /\ readOnly (getIdToken sp c w)
  /\ readOnly (getRefreshToken sp c w)
  /\ readOnly (getAuthenticationResult sp c w)
  /\ readOnly (hasIdTokenExpiredAndRenewCheckIsEnabled sp tv c w)
  /\ readOnly (hasAccessTokenExpiredIfExpiryExists sp tv c w)
  /\ readOnly (areAuthStorageTokensValid sp tv c w).
Proof.
  cbn zeta.
  assert (Forall (fun k => isMutatingCall k = false) (calls (isAuthenticated sp c w))) as Hp.
  { eapply Forall_impl; [apply isAuthenticated_calls_read_only|]. by intros k [H _]. }
  split. { split; [by rewrite isAuthenticated_run | exact Hp]. }
  split. { rewrite getAccessToken_run. destruct (result _); split; try done.
           apply Forall_app. split; [exact Hp | repeat constructor]. }
  split. { rewrite getIdToken_run. destruct (result _); split; try done.
           apply Forall_app. split; [exact Hp | repeat constructor]. }
  split. { rewrite getRefreshToken_run. destruct (result _); split; try done.
           apply Forall_app. split; [exact Hp | repeat constructor]. }
  split. { rewrite getAuthenticationResult_run. destruct (result _); split; try done.
           apply Forall_app. split; [exact Hp | repeat constructor]. }
  split. { split; [apply idCheck_world | apply idCheck_calls_read_only]. }
  split. { split; [by rewrite hasAccessTokenExpiredIfExpiryExists_run
                  | apply accessCheck_calls_read_only]. }
  split; [apply areAuthStorageTokensValid_world|].
  pose proof (idCheck_calls_read_only c w) as Hi.
  pose proof (accessCheck_calls_read_only c w) as Ha.
  rewrite areAuthStorageTokensValid_run. cbn zeta.
  destruct (result (isAuthenticated sp c w)); cbn [negb calls snd]; [|exact Hp].
  destruct (result (hasIdTokenExpiredAndRenewCheckIsEnabled sp tv c w)); cbn [calls snd].
  { repeat (apply Forall_app; split); try done. repeat constructor. }
  destruct (result (hasAccessTokenExpiredIfExpiryExists sp tv c w)); cbn [calls snd];
    repeat (apply Forall_app; split); try done; repeat constructor.
Qed.

Lemma unescapeOctets_literal (c : ascii) (rest : string) :
  Ascii.eqb c "%" = false ->
  Js.unescapeOctets (String c rest)
  = match Js.unescapeOctets rest with
    | Some r => Some ((false, N_of_ascii c) :: r)
    | None => None
    end.
Proof.
  intros H. destruct c as [[] [] [] [] [] [] [] []]; try reflexivity; discriminate H.
Qed.

Lemma decodeURIComponent_percentFree (s : string) :
  percentFree s = true -> Js.decodeURIComponent s = Js.Return s.
Proof.
  intros H. unfold Js.decodeURIComponent.
  assert (exists l, Js.unescapeOctets s = Some l
                    /\ Js.decodeOctets l = Some (map snd l)
                    /\ Js.bytesToString (map snd l) = s) as (l & -> & Hd & Hb).
  { induction s as [|c s IH]; [by exists []|].
    cbn [percentFree] in H. apply andb_true_iff in H as [Hc Hs].
    apply negb_true_iff in Hc.
    destruct (IH Hs) as (l & Hl & Hd & Hb).
    exists ((false, N_of_ascii c) :: l).
    rewrite (unescapeOctets_literal c s Hc), Hl. split; [done|]. split.
    - cbn [Js.decodeOctets map snd]. by rewrite Hd.
    - cbn [map snd Js.bytesToString foldr]. fold (Js.bytesToString (map snd l)).
      by rewrite Hb, ascii_N_embedding. }
  cbn. by rewrite Hd, Hb.
Qed.

Lemma decodeURIComponentSafely_percentFree (s : string) :
  percentFree s = true -> decodeURIComponentSafely (Js.str s) = Js.Return (Js.str s).
Proof.
  intros H. unfold decodeURIComponentSafely.
  destruct (Js.truthy (Js.str s)) eqn:E.
  - by rewrite (decodeURIComponent_percentFree s H).
  - cbn in E. apply negb_false_iff, String.eqb_eq in E. by subst s.
Qed.

Lemma decodeURIComponentSafely_not_null (token : Js.Str) :
  (exists s, decodeURIComponentSafely token = Js.Return (Js.str s))
  \/ decodeURIComponentSafely token = Js.Throw "URIError".
Proof.
  unfold decodeURIComponentSafely, Js.decodeURIComponent.
  destruct token as [| |s]; [left; by eexists | left; by eexists |].
  destruct (Js.truthy (Js.str s)); [|left; by eexists].
  destruct (Js.unescapeOctets s ≫= Js.decodeOctets); cbn; [left; by eexists | by right].
Qed.

(** X9: A stored token without a percent sign comes back from its getter
    unchanged: with both tokens stored, each of the three token getters
    returns the very string the store holds whenever that string has no
    percent sign in it. *)
Theorem token_getters_return_percent_free_tokens_unchanged
    (c : OpenIdConfiguration) (w : World) :
  result (isAuthenticated sp c w) = true ->
  (forall s, Storage.getAccessToken sp c (storage w) = Js.str s -> percentFree s = true ->
             result (getAccessToken sp c w) = Js.Return (Js.str s))
  /\ (forall s, Storage.getIdToken sp c (storage w) = Js.str s -> percentFree s = true ->
                result (getIdToken sp c w) = Js.Return (Js.str s))
  /\ (forall s, Storage.getRefreshToken sp c (storage w) = Js.str s -> percentFree s = true ->
                result (getRefreshToken sp c w) = Js.Return (Js.str s)).
Proof.
  intros Hauth. rewrite getAccessToken_run, getIdToken_run, getRefreshToken_run, Hauth.
  cbn [result fst].
  repeat split; intros s -> Hs; by apply decodeURIComponentSafely_percentFree.
Qed.

(** X10: [null] means not authenticated and nothing else: each of the three
    token getters returns [null] exactly when [isAuthenticated] is false;
    with both tokens stored it returns a string or throws [URIError],
    never [null] or [undefined]. *)
Theorem token_getters_null_iff_unauthenticated (c : OpenIdConfiguration) (w : World) :
  let authenticated := result (isAuthenticated sp c w) in
  let stringOrURIError (out : Js.Completion Js.Str) :=
    (exists s, out = Js.Return (Js.str s)) \/ out = Js.Throw "URIError" in
  (result (getAccessToken sp c w) = Js.Return Js.null <-> authenticated = false)
  /\ (result (getIdToken sp c w) = Js.Return Js.null <-> authenticated = false)
  /\ (result (getRefreshToken sp c w) = Js.Return Js.null <-> authenticated = false)
  /\ (authenticated = true ->
      stringOrURIError (result (getAccessToken sp c w))
      /\ stringOrURIError (result (getIdToken sp c w))
      /\ stringOrURIError (result (getRefreshToken sp c w))).
Proof.
  cbn zeta. rewrite getAccessToken_run, getIdToken_run, getRefreshToken_run.
  destruct (result (isAuthenticated sp c w)); cbn [result fst].
  - pose proof (decodeURIComponentSafely_not_null (Storage.getAccessToken sp c (storage w))) as Ha.
    pose proof (decodeURIComponentSafely_not_null (Storage.getIdToken sp c (storage w))) as Hi.
    pose proof (decodeURIComponentSafely_not_null (Storage.getRefreshToken sp c (storage w)))
      as Hr.
    repeat split; try done; intros H; rewrite H in *;
      match goal with
      | H' : (exists s, Js.Return Js.null = _) \/ _ |- _ =>
          destruct H' as [[s H']|H']; discriminate H'
      end.
  - repeat split; try done.
Qed.

(** X11: An expiry check fires its event exactly when it answers true, once,
    with payload true, and fires nothing else; the id-token check can
    only answer true when it is enabled. *)
Theorem expiry_checks_fire_iff_expired (c : OpenIdConfiguration) (w : World) :
  let idRun := hasIdTokenExpiredAndRenewCheckIsEnabled sp tv c w in
  let accessRun := hasAccessTokenExpiredIfExpiryExists sp tv c w in
  filter (fun k => isFireEvent k = true) (calls idRun)
  = (if result idRun then [pe_fireEvent IdTokenExpired true] else [])
  /\ filter (fun k => isFireEvent k = true) (calls accessRun)
     = (if result accessRun then [pe_fireEvent TokenExpired true] else [])
  /\ (result idRun = true -> enableIdTokenExpiredValidationInRenew c = true)
  /\ result accessRun
     = negb (TokenValidation.validateAccessTokenNotExpired tv
               (Storage.read sp "access_token_expires_at" c (storage w)) c
               (renewTimeBeforeTokenExpiresInSeconds c)).
Proof.
  cbn zeta. rewrite hasIdTokenExpiredAndRenewCheckIsEnabled_run,
    hasAccessTokenExpiredIfExpiryExists_run. cbn zeta.
  destruct (TokenValidation.hasIdTokenExpired tv _ c _);
    destruct (TokenValidation.validateAccessTokenNotExpired tv _ c _);
    destruct (enableIdTokenExpiredValidationInRenew c);
    cbn; repeat split; done.
Qed.

(** X12: [areAuthStorageTokensValid] tells which token expired: when it answers
    true, or answers false for want of a token, it fires no event; when
    both tokens are stored and it answers false it fires exactly one
    event, [IdTokenExpired] or [TokenExpired]. *)
Theorem areAuthStorageTokensValid_events (c : OpenIdConfiguration) (w : World) :
  let run := areAuthStorageTokensValid sp tv c w in
  let events := filter (fun k => isFireEvent k = true) (calls run) in
  (result run = true -> events = [])
  /\ (result (isAuthenticated sp c w) = false -> events = [])
  /\ (result (isAuthenticated sp c w) = true -> result run = false ->
      (events = [pe_fireEvent IdTokenExpired true]
       /\ result (hasIdTokenExpiredAndRenewCheckIsEnabled sp tv c w) = true)
      \/ (events = [pe_fireEvent TokenExpired true]
          /\ result (hasIdTokenExpiredAndRenewCheckIsEnabled sp tv c w) = false)).
Proof.
  cbn zeta. rewrite areAuthStorageTokensValid_run. cbn zeta.
  rewrite hasIdTokenExpiredAndRenewCheckIsEnabled_run,
    hasAccessTokenExpiredIfExpiryExists_run, isAuthenticated_run. cbn zeta.
  destruct (TokenValidation.hasIdTokenExpired tv _ c _);
    destruct (TokenValidation.validateAccessTokenNotExpired tv _ c _);
    destruct (Js.truthy (Storage.getAccessToken sp c (storage w)));
    destruct (Js.truthy (Storage.getIdToken sp c (storage w)));
    destruct (enableIdTokenExpiredValidationInRenew c);
    cbn; repeat split; try done; intros; auto.
Qed.

End AuthStateQueries.

(** ** AuthStateService: publishing, subscriptions and logging out *)

Section AuthStateStream.

Import AuthState Session.
#[local] Existing Instance M_bind.
#[local] Existing Instance M_ret.

Context {St : Type}.
Variable sp : Storage.Service St.
Variable tv : TokenValidation.Service.

(** What a world looks like after [o], a fresh object, was published. *)
Lemma setUnauthenticatedAndFireEvent_explicit (c : OpenIdConfiguration) (w : World) :
  let o := {| address := nextAddress w;
              contents :=
                {| ar_isAuthenticated := false;
                   ar_allConfigsAuthenticated :=
                     [ {| car_configId := configId c; car_isAuthenticated := false |} ] |} |} in
  setUnauthenticatedAndFireEvent sp c w
  = (tt,
     {| storage := Storage.resetAuthStateInStorage sp c (storage w);
        now := now w; nextAddress := S (nextAddress w);
        authenticatedInternal := o;
        subscriptions := map (distinctNext o) (subscriptions w) |},
     [sp_resetAuthStateInStorage c]).
Proof.
  unfold setUnauthenticatedAndFireEvent, composeUnAuthenticatedResult. unfold_M.
  reflexivity.
Qed.

Lemma runOp_publish (op : Op) (w : World) :
  isPublish op = true ->
  exists (r : AuthenticatedResult) (st : St),
    runOp sp tv op w
    = {| storage := st; now := now w; nextAddress := S (nextAddress w);
         authenticatedInternal := {| address := nextAddress w; contents := r |};
         subscriptions :=
           map (distinctNext {| address := nextAddress w; contents := r |})
               (subscriptions w) |}.
Proof.
  destruct op as [|cs|c|t ar c| | | | | | | |]; try discriminate; intros _; cbn [runOp].
  - destruct (decide (length cs = 1)) as [Hone|Hlen].
    + destruct cs as [|c [|c' cs]]; try discriminate Hone.
      do 2 eexists. reflexivity.
    + unfold setAuthenticatedAndFireEvent. unfold mbind, M_bind.
      rewrite (proj1 (compose_not_single sp cs Hlen)), checkAll_run.
      do 2 eexists. reflexivity.
  - rewrite setUnauthenticatedAndFireEvent_explicit. do 2 eexists. reflexivity.
  - rewrite setAuthorizationData_run. do 2 eexists. reflexivity.
Qed.

Lemma runOp_query (op : Op) (w : World) :
  isPublish op = false -> op <> doSubscribe -> runOp sp tv op w = w.
Proof.
  destruct op as [|cs|c|t ar c|c|c|c|c|c|c|c|c]; try discriminate; try done;
    intros _ _; cbn [runOp];
    first [ apply areAuthStorageTokensValid_world | apply idCheck_world
          | apply (getters_world sp tv c w) ].
Qed.

Lemma upToDate_step (op : Op) (w : World) :
  upToDate w -> upToDate (runOp sp tv op w).
Proof.
  intros [Hcur Hsubs].
  destruct (isPublish op) eqn:Hpub.
  - destruct (runOp_publish op w Hpub) as (r & st & ->).
    split; [cbn; lia|]. cbn [subscriptions authenticatedInternal].
    apply Forall_fmap. eapply Forall_impl; [exact Hsubs|].
    intros d [Hkey Hlast]. cbn.
    rewrite distinctNext_fresh.
    + cbn. by rewrite last_snoc.
    + intros k Hk. rewrite Hkey in Hk. injection Hk as <-. cbn. lia.
  - assert (op = doSubscribe \/ op <> doSubscribe) as [->|Hne]
      by (destruct op; (by left) || (by right)).
    + cbn. split; [done|]. apply Forall_app. split; [done|].
      repeat constructor.
    + by rewrite runOp_query.
Qed.

(** X13: Subscribers are never stale: after any sequence of calls on a fresh
    service, every subscription of [authenticated$] has the subject's
    current value as the last notification it received. *)
Theorem subscribers_hold_the_current_value (ops : list Op) (st : St) (t : Z) :
  upToDate (runOps sp tv ops (initialWorld st t)).
Proof.
  assert (upToDate (initialWorld st t)) as Hinit.
  { split; [cbn; lia | constructor]. }
  revert Hinit. generalize (initialWorld st t).
  induction ops as [|op ops IH]; intros w Hw; [done|].
  cbn [runOps foldl]. apply IH. by apply upToDate_step.
Qed.

(** X14: Nothing is ever suppressed: in a world whose subscribers hold the
    current value, each publishing method hands every subscription exactly
    one more notification, the value it published. *)
Theorem every_publish_is_delivered (op : Op) (w : World) :
  upToDate w ->
  isPublish op = true ->
  map received (subscriptions (runOp sp tv op w))
  = map (fun d => received d ++ [authenticatedInternal (runOp sp tv op w)])
        (subscriptions w).
Proof.
  intros [Hcur Hsubs] Hpub.
  destruct (runOp_publish op w Hpub) as (r & st & ->).
  cbn [subscriptions authenticatedInternal]. rewrite map_map.
  apply map_ext_in. intros d Hd.
  rewrite Forall_forall in Hsubs.
  destruct (Hsubs d (proj2 (list_elem_of_In _ _) Hd)) as [Hkey _].
  rewrite distinctNext_fresh; [done|].
  intros k Hk. rewrite Hkey in Hk. injection Hk as <-. cbn. lia.
Qed.

(** X16: Logging out is consistent with the store when the store lets go of a
    token: if resetting the configuration leaves its access token or its
    id token falsy, then after [setUnauthenticatedAndFireEvent] the
    published aggregate is what [checkAllConfigsIfTheyAreAuthenticated]
    would compute, [isAuthenticated] and [areAuthStorageTokensValid] are
    false, no expiry event is fired and the getters return [null]. *)
Theorem logged_out_means_unauthenticated (c : OpenIdConfiguration) (w : World) :
  let cleared := Storage.resetAuthStateInStorage sp c (storage w) in
  Js.truthy (Storage.getAccessToken sp c cleared) = false
  \/ Js.truthy (Storage.getIdToken sp c cleared) = false ->
  let w' := world (setUnauthenticatedAndFireEvent sp c w) in
  storage w' = cleared
  /\ contents (authenticatedInternal w')
     = contents (result (checkAllConfigsIfTheyAreAuthenticated sp [c] w'))
  /\ result (isAuthenticated sp c w') = false
  /\ areAuthStorageTokensValid sp tv c w'
     = (false, w', calls (isAuthenticated sp c w'))
  /\ result (getAccessToken sp c w') = Js.Return Js.null
  /\ result (getIdToken sp c w') = Js.Return Js.null
  /\ result (getRefreshToken sp c w') = Js.Return Js.null
  /\ result (getAuthenticationResult sp c w') = Js.Return Js.vnull.
Proof.
  intros cleared Hcleared w'. subst w'.
  rewrite setUnauthenticatedAndFireEvent_explicit. cbn [world fst snd].
  set (w' := Build_World _ _ _ _ _).
  assert (result (isAuthenticated sp c w') = false) as Hno.
  { rewrite isAuthenticated_run. cbn [result fst storage w']. fold cleared.
    destruct Hcleared as [-> | ->]; [done | apply andb_false_r]. }
  split; [done|].
  split. { rewrite checkAll_single, Hno. done. }
  split; [exact Hno|].
  split. { rewrite areAuthStorageTokensValid_run. cbn zeta. by rewrite Hno. }
  rewrite getAccessToken_run, getIdToken_run, getRefreshToken_run,
    getAuthenticationResult_run, Hno.
  done.
Qed.

Lemma allocationOrder_step (op : Op) (w : World) :
  upToDate w -> allocationOrder w -> allocationOrder (runOp sp tv op w).
Proof.
  intros [Hcur Hsubs] Hord. unfold allocationOrder in *.
  destruct (isPublish op) eqn:Hpub.
  - destruct (runOp_publish op w Hpub) as (r & st & ->).
    cbn [subscriptions nextAddress]. apply Forall_fmap.
    rewrite Forall_forall in Hsubs, Hord. apply Forall_forall. intros d Hd.
    destruct (Hsubs d Hd) as [Hkey _]. destruct (Hord d Hd) as [Hsorted Hbound].
    cbn. rewrite distinctNext_fresh.
    + cbn [received]. split.
      * apply StronglySorted_app_2; [|done|repeat constructor].
        intros x1 x2 Hx1 Hx2. apply list_elem_of_singleton in Hx2 as ->.
        rewrite Forall_forall in Hbound. cbn. by apply Hbound.
      * apply Forall_app. split; [|repeat constructor; cbn; lia].
        eapply Forall_impl; [exact Hbound|]. cbn. intros o Ho. lia.
    + intros k Hk. rewrite Hkey in Hk. injection Hk as <-. cbn. lia.
  - assert (op = doSubscribe \/ op <> doSubscribe) as [->|Hne]
      by (destruct op; (by left) || (by right)).
    + cbn. apply Forall_app. split; [done|].
      repeat constructor. done.
    + by rewrite runOp_query.
Qed.

Lemma StronglySorted_address_NoDup (l : list Obj) :
  StronglySorted (fun a b => address a < address b) l -> NoDup (map address l).
Proof.
  induction 1 as [|o l _ IH Hall]; cbn [map]; constructor; [|done].
  intros Hin. apply list_elem_of_fmap in Hin as (o' & Heq & Ho').
  rewrite Forall_forall in Hall. specialize (Hall o' Ho'). lia.
Qed.

(** X15: What identity-based suppression amounts to: after any sequence of
    calls on a fresh service, what a subscription of [authenticated$] has
    received are objects in the order of their allocation, so no object
    is ever delivered to it twice. *)
Theorem notifications_are_distinct_objects (ops : list Op) (st : St) (t : Z) :
  Forall (fun d => StronglySorted (fun a b => address a < address b) (received d)
                   /\ NoDup (map address (received d)))
         (subscriptions (runOps sp tv ops (initialWorld st t))).
Proof.
  assert (upToDate (initialWorld st t) /\ allocationOrder (initialWorld st t)) as Hinit.
  { split; [split; [cbn; lia | constructor] | constructor]. }
  assert (forall w, upToDate w /\ allocationOrder w ->
                    upToDate (runOps sp tv ops w) /\ allocationOrder (runOps sp tv ops w))
    as Hall.
  { induction ops as [|op ops IH]; intros w [Hup Hord]; [done|].
    cbn [runOps foldl]. apply IH. split.
    - by apply upToDate_step.
    - by apply allocationOrder_step. }
  destruct (Hall _ Hinit) as [_ Hord].
  eapply Forall_impl; [exact Hord|].
  intros d [Hsorted _]. split; [done|]. by apply StronglySorted_address_NoDup.
Qed.

(** X17: Writing the access token alone already publishes the configuration as
    authenticated: if no id token is stored once [setAuthorizationData] has
    written, the published aggregate says authenticated while
    [isAuthenticated] and [areAuthStorageTokensValid] say no and the
    access-token getter returns [null]. *)
Theorem authorization_data_alone_publishes_authenticated
    (accessToken : string) (authResult : option AuthResult)
    (c : OpenIdConfiguration) (w : World) :
  let w' := world (setAuthorizationData sp accessToken authResult c w) in
  Js.truthy (Storage.getIdToken sp c (storage w')) = false ->
  contents (authenticatedInternal w')
  = {| ar_isAuthenticated := true;
       ar_allConfigsAuthenticated :=
         [ {| car_configId := configId c; car_isAuthenticated := true |} ] |}
  /\ result (isAuthenticated sp c w') = false
  /\ result (areAuthStorageTokensValid sp tv c w') = false
  /\ result (getAccessToken sp c w') = Js.Return Js.null.
Proof.
  intros w' Hid.
  assert (result (isAuthenticated sp c w') = false) as Hno.
  { rewrite isAuthenticated_run. cbn [result fst]. rewrite Hid. apply andb_false_r. }
  split.
  { subst w'. rewrite setAuthorizationData_run. done. }
  split; [exact Hno|]. split.
  - rewrite areAuthStorageTokensValid_run. cbn zeta. by rewrite Hno.
  - by rewrite getAccessToken_run, Hno.
Qed.

End AuthStateStream.

(** ** Concrete inputs for the conditional properties *)

Section ConditionalRuns.

Import AuthState Session InMemory.

Lemma compose_off_the_shortcut_witness :
  length [configA; configB] <> 1
  /\ ar_isAuthenticated
       (contents (authenticatedInternal
                    (world (setAuthenticatedAndFireEvent service [configA; configB] loggedIn))))
     = false.
Proof.
  split; [cbn; lia|].
  destruct (compose_off_the_shortcut service [configA; configB] loggedIn
              ltac:(cbn; lia)) as (_ & H & _).
  rewrite H. vm_compute. reflexivity.
Defined.

Lemma token_getters_percent_free_witness :
  result (isAuthenticated service configA loggedIn) = true
  /\ result (getAccessToken service configA loggedIn) = Js.Return (Js.str "at").
Proof.
  split; [vm_compute; reflexivity|].
  destruct (token_getters_return_percent_free_tokens_unchanged service configA loggedIn
              ltac:(vm_compute; reflexivity)) as (H & _ & _).
  apply H; vm_compute; reflexivity.
Defined.

Lemma every_publish_is_delivered_witness :
  let w := world (subscribe (fresh 0)) in
  let op := doSetAuthenticatedAndFireEvent [configA] in
  upToDate w
  /\ isPublish op = true
  /\ map (fun l => map address l)
         (map received (subscriptions (runOp service (stubTokenValidation true true) op w)))
     = [[0; 1]].
Proof.
  cbv zeta.
  assert (upToDate (world (subscribe (fresh 0)))) as Hup.
  { split; [cbn; lia | repeat constructor]. }
  split; [exact Hup|]. split; [reflexivity|].
  rewrite (every_publish_is_delivered service (stubTokenValidation true true)
             (doSetAuthenticatedAndFireEvent [configA]) _ Hup eq_refl).
  vm_compute. reflexivity.
Defined.

Lemma logged_out_witness :
  Js.truthy (Storage.getAccessToken service configA
               (Storage.resetAuthStateInStorage service configA (storage loggedIn))) = false
  /\ result (isAuthenticated service configA
               (world (setUnauthenticatedAndFireEvent service configA loggedIn))) = false.
Proof.
  split; [vm_compute; reflexivity|].
  destruct (logged_out_means_unauthenticated service (stubTokenValidation false true)
              configA loggedIn ltac:(left; vm_compute; reflexivity)) as (_ & _ & H & _).
  exact H.
Defined.

Lemma authorization_data_alone_witness :
  let w' := world (setAuthorizationData service "at" None configA (fresh 0)) in
  Js.truthy (Storage.getIdToken service configA (storage w')) = false
  /\ ar_isAuthenticated (contents (authenticatedInternal w')) = true
  /\ result (isAuthenticated service configA w') = false.
Proof.
  cbv zeta. split; [vm_compute; reflexivity|].
  destruct (authorization_data_alone_publishes_authenticated service
              (stubTokenValidation false true) "at" None configA (fresh 0)
              ltac:(vm_compute; reflexivity)) as (Hpub & Hno & _).
  split; [by rewrite Hpub | exact Hno].
Defined.

End ConditionalRuns.
